(** * numpy_utility: Gaussian receptive fields, tile placement and mosaics

    A shallow embedding of [src/numpy_utility.py].

    Conventions of the embedding.
    - Floating-point scalars are idealised as real numbers: every
      arithmetic operation is exact, the precision cast [dtype] is the
      identity, and rounding, overflow and underflow are not represented.
    - A 1-D array is a [list R]; a 2-D array is a list of rows; a stack is
      a list of 2-D arrays.
    - A Python exception is a value [Raise e] of the [result] monad.
    - [scipy.special.erf] is the error function, defined by its integral.
    - Where numpy leaves [inf] or [nan] behind instead of raising, the
      mosaic normalisation records it as a [NonFinite] pixel; a grid step
      that is zero or not finite ([n_pix = 0], [size = 0]) makes
      [np.arange] raise; [sigma = 0] is outside the domain of the
      theorems on field values. *)

From Stdlib Require Import Reals Lra Lia ZArith String.
From stdpp Require Import base list.

(** ** Exceptions *)

Inductive exn : Type :=
  | AssertionError
  | ValueError
  | IndexError
  | ZeroDivisionError
  | NameError
  | OutOfFuel.  (* not a Python exception: a loop of the model ran out of fuel *)

Inductive result (A : Type) : Type :=
  | Ok (a : A)
  | Raise (e : exn).
Arguments Ok {A} a.
Arguments Raise {A} e.

#[global] Instance result_ret : MRet result := fun A a => Ok a.
#[global] Instance result_bind : MBind result := fun A B f m =>
  match m with
  | Ok a => f a
  | Raise e => Raise e
  end.

(** [for i in idx: acc = body(acc, i)], stopping at the first exception. *)
Fixpoint for_range {A : Type} (body : A → nat → result A) (idx : list nat)
    (acc : A) : result A :=
  match idx with
  | [] => Ok acc
  | i :: rest => acc' ← body acc i; for_range body rest acc'
  end.

(** [l[i]] on a Python sequence. *)
Definition getitem {A : Type} (l : list A) (i : nat) : result A :=
  match l !! i with
  | Some v => Ok v
  | None => Raise IndexError
  end.

(** ** Arrays *)

Abbreviation vec := (list R) (only parsing).
Abbreviation mat := (list (list R)) (only parsing).

Definition mat_map (f : R → R) (M : mat) : mat := fmap (M := list) f <$> M.
Definition mat_zip (f : R → R → R) (A B : mat) : mat := zip_with (zip_with f) A B.

Definition Rsum (l : list R) : R := foldr Rplus 0%R l.

(** [np.sum(M)]: the total of all entries. *)
Definition np_sum (M : mat) : R := Rsum (Rsum <$> M).

(** The cell of [M] in row [r] and column [c]. *)
Definition cell {E : Type} (M : list (list E)) (r c : nat) : option E :=
  M !! r ≫= (.!! c).

Definition has_shape {E : Type} (r c : nat) (M : list (list E)) : bool :=
  (length M =? r) && forallb (fun row => length row =? c) M.

(** The precision cast [dtype(v)] and [M.astype(dtype)], exact here. *)
Definition dtype (v : R) : R := v.
Definition astype (M : mat) : mat := mat_map dtype M.

(** [np.arange(start, stop, step)]: [ceil((stop - start)/step)] samples
    [start + i*step]; a zero step has no length and raises. *)
Definition arange (start stop step : R) : result vec :=
  if Req_dec_T step 0 then Raise ValueError
  else Ok ((fun i => (start + INR i * step)%R)
             <$> seq 0 (Z.to_nat (Zceil ((stop - start) / step)))).

(** [np.meshgrid(a, b)] with the default 'xy' indexing: both outputs have
    [len(b)] rows and [len(a)] columns. *)
Definition meshgrid (a b : vec) : mat * mat :=
  ((fun _ => a) <$> b, (fun v => (fun _ => v) <$> a) <$> b).

(** ** The error function *)

Definition gauss_kernel (t : R) : R := exp (- (t * t)).

(** The kernel is continuous, hence integrable on every interval. *)
Definition gauss_kernel_integrable (a b : R) : Riemann_integrable gauss_kernel a b.
Proof.
  assert (Hcont : continuity gauss_kernel).
  { unfold gauss_kernel.
    apply (continuity_comp (fun t => (- (t * t))%R) exp).
    - apply continuity_opp.
      apply continuity_mult; apply derivable_continuous, derivable_id.
    - apply derivable_continuous, derivable_exp. }
  destruct (Rle_dec a b) as [Hab|Hab].
  - apply continuity_implies_RiemannInt; [exact Hab|]. intros t _. apply Hcont.
  - apply RiemannInt_P1.
    apply continuity_implies_RiemannInt; [lra|]. intros t _. apply Hcont.
Defined.

(** [erf(t) = 2/sqrt(pi) * integral of exp(-u^2) for u from 0 to t]. *)
Definition erf (t : R) : R :=
  (2 / sqrt PI * RiemannInt (gauss_kernel_integrable 0 t))%R.

(** ** Gaussian generators *)

Section Gaussian.
Local Open Scope R_scope.

(** The per-cell value of the point-sampled field: the density at the
    cell's centre times the pixel area. *)
Definition point_sample (x y sigma dpix : R) (xm ym : R) : R :=
  let d := 2 * dtype sigma ^ 2 in
  let A := dtype (1 / (d * PI)) in
  dpix ^ 2 * A * exp (- ((xm - x) ^ 2 + (- ym - y) ^ 2) / d).

Definition make_gaussian (x y sigma : R) (n_pix : nat) (size : option R)
    : result (mat * mat * mat) :=
  let deg := match size with None => dtype (INR n_pix) | Some s => s end in
  let dpix := dtype deg / INR n_pix in
  let pix_min := - deg / 2 + 0.5 * dpix in
  let pix_max := deg / 2 in
  ax ← arange pix_min pix_max dpix;
  ay ← arange pix_min pix_max dpix;
  let '(Xm, Ym) := meshgrid ax ay in
  let Zm := mat_zip (point_sample x y sigma dpix) Xm Ym in
  let Zm := if Rlt_dec sigma (dpix / 2)
            then mat_map (fun z => z / np_sum Zm) Zm
            else Zm in
  Ok (Xm, mat_map Ropp Ym, astype Zm).

Definition gaussian_mass (xi yi dx dy x y sigma : R) : R :=
  0.25 * (erf ((xi - x + dx / 2) / (sqrt 2 * sigma))
          - erf ((xi - x - dx / 2) / (sqrt 2 * sigma)))
       * (erf ((yi - y + dy / 2) / (sqrt 2 * sigma))
          - erf ((yi - y - dy / 2) / (sqrt 2 * sigma))).

Definition make_gaussian_mass (x y sigma : R) (n_pix : nat) (size : option R)
    : result (mat * mat * mat) :=
  let deg := match size with None => dtype (INR n_pix) | Some s => s end in
  let dpix := dtype deg / INR n_pix in
  let pix_min := - deg / 2 + 0.5 * dpix in
  let pix_max := deg / 2 in
  ax ← arange pix_min pix_max dpix;
  ay ← arange pix_min pix_max dpix;
  let '(Xm, Ym) := meshgrid ax ay in
  let Zm :=
    if Rlt_dec sigma dpix
    then let g_mass := fun a b => gaussian_mass a b dpix dpix x y sigma in
         mat_zip g_mass Xm (mat_map Ropp Ym)
    else mat_zip (point_sample x y sigma dpix) Xm Ym in
  Ok (Xm, mat_map Ropp Ym, astype Zm).

End Gaussian.

(** ** Stacking wrappers *)

(** [np.ndarray(shape=(k, n, n))]: freshly allocated, uninitialised
    storage; [junk] stands for whatever the memory holds. *)
Definition np_ndarray (junk : R) (k n : nat) : list mat :=
  replicate k (replicate n (replicate n junk)).

(** [Z[i,:,:] = L] on a stack of [n]-by-[n] layers: the layer is stored
    when its shape matches, a 1-by-1 value is broadcast, and any other
    shape raises. *)
Definition setitem_layer (Z : list mat) (i n : nat) (L : mat) : result (list mat) :=
  if has_shape n n L then Ok (<[i := L]> Z)
  else match L with
       | [[v]] => Ok (<[i := replicate n (replicate n v)]> Z)
       | _ => Raise ValueError
       end.

Section Stack.

(** The single-instance generator the wrapper calls; the two wrappers of
    the source have the same body and differ in this callee only. *)
Variable gen : R → R → R → nat → option R → result (mat * mat * mat).
Variable junk : R.

Definition stack_with (xs ys sigmas : list R) (n_pix : nat) (size : option R)
    : result (mat * mat * list mat) :=
  let stack_size := length xs `min` (length ys `min` length sigmas) in
  if stack_size =? 0 then Raise AssertionError else
  let Zs := np_ndarray junk stack_size n_pix in
  x0 ← getitem xs 0; y0 ← getitem ys 0; s0 ← getitem sigmas 0;
  '(X, Y, L0) ← gen x0 y0 s0 n_pix size;
  Zs ← setitem_layer Zs 0 n_pix L0;
  Zs ← for_range (fun Zs i =>
          xi ← getitem xs i; yi ← getitem ys i; si ← getitem sigmas i;
          '(_, _, Li) ← gen xi yi si n_pix size;
          setitem_layer Zs i n_pix Li)
        (seq 1 (stack_size - 1)) Zs;
  Ok (X, Y, Zs).

End Stack.

Definition make_gaussian_stack (junk : R) := stack_with make_gaussian junk.
Definition make_gaussian_mass_stack (junk : R) := stack_with make_gaussian_mass junk.

(** ** Slice assignment *)

Definition in_block (r0 c0 h w r c : nat) : bool :=
  (r0 <=? r) && (r <? r0 + h) && (c0 <=? c) && (c <? c0 + w).

(** [dst[r0:r0+h, c0:c0+w] = src]. The callers assign a source of shape
    [(h, w)] to a block that lies inside [dst]; in any other case numpy
    finds the clipped slice and the source of different shapes and raises. *)
Definition setitem_block {E : Type} (dst : list (list E)) (r0 c0 h w : nat)
    (src : list (list E)) : result (list (list E)) :=
  if has_shape h w src && (r0 + h <=? length dst)
     && forallb (fun row => c0 + w <=? length row) dst
  then Ok (imap (fun r row =>
             imap (fun c v =>
               if in_block r0 c0 h w r c
               then default v (cell src (r - r0) (c - c0))
               else v) row) dst)
  else Raise ValueError.

(** ** Tile placement *)

(** A 4-D array with its shape, which numpy keeps even when an axis is
    empty. *)
Record ndarray4 : Type := {
  shape4 : nat * nat * nat * nat;
  data4 : list (list (list (list R)))
}.

Definition np_zeros4 (b f h w : nat) : ndarray4 :=
  {| shape4 := (b, f, h, w);
     data4 := replicate b (replicate f (replicate h (replicate w 0%R))) |}.

(** The process-wide random source: a stream of raw draws. *)
Definition rng : Type := nat → nat.

(** [np.random.randint(low, high, size=size)]: [size] integers in
    [[low, high)], raising when the interval is empty. *)
Definition randint (st : rng) (low high : Z) (size : nat) : result (list Z * rng) :=
  if (high <=? low)%Z then Raise ValueError
  else Ok ((fun j => (low + Z.of_nat (st j) mod (high - low))%Z) <$> seq 0 size,
           fun j => st (size + j)).

(** [Ab[:, px:px+dx, py:py+dx] = t]: one block per feature plane. *)
Fixpoint setitem_planes (Ab : list (list (list R))) (px py dx : nat)
    (t : list (list (list R))) : result (list (list (list R))) :=
  match Ab, t with
  | [], [] => Ok []
  | plane :: Ab', tp :: t' =>
      plane' ← setitem_block plane px py dx dx tp;
      rest ← setitem_planes Ab' px py dx t';
      Ok (plane' :: rest)
  | _, _ => Raise ValueError
  end.

Definition place_tile_in (st : rng) (tile : ndarray4) (new_npx : nat)
    : result (ndarray4 * rng) :=
  let '(batch_size, features, dx, _) := shape4 tile in
  let A := np_zeros4 batch_size features new_npx new_npx in
  let max_x := (Z.of_nat new_npx - Z.of_nat dx)%Z in
  '(pos_x, st) ← randint st 0 max_x batch_size;
  '(pos_y, st) ← randint st 0 max_x batch_size;
  A' ← for_range (fun A b =>
          px ← getitem pos_x b; py ← getitem pos_y b;
          tb ← getitem (data4 tile) b; Ab ← getitem A b;
          Ab' ← setitem_planes Ab (Z.to_nat px) (Z.to_nat py) dx tb;
          Ok (<[b := Ab']> A))
        (seq 0 batch_size) (data4 A);
  Ok ({| shape4 := shape4 A; data4 := A' |}, st).

(** ** Mosaics *)

(** A pixel of the mosaic: a number, or the [nan]/[inf] a division by zero
    leaves behind. *)
Inductive fval : Type :=
  | Finite (v : R)
  | NonFinite.

Definition fdiv (a b : R) : fval :=
  if Req_dec_T b 0 then NonFinite else Finite (a / b).

(** [np.amin], [np.amax] over all entries; an empty array raises. *)
Definition np_amin (l : list R) : result R :=
  match l with
  | [] => Raise ValueError
  | v :: l' => Ok (foldl Rmin v l')
  end.
Definition np_amax (l : list R) : result R :=
  match l with
  | [] => Raise ValueError
  | v :: l' => Ok (foldl Rmax v l')
  end.

(** A batch of [n] images, single-channel ([X.shape] of length 3) or with
    [c] channels per pixel (length 4). *)
Inductive batch : Type :=
  | Batch3 (n h w : nat) (data : list (list (list R)))
  | Batch4 (n h w c : nat) (data : list (list (list (list R)))).

Inductive image : Type :=
  | Image2 (data : list (list fval))
  | Image3 (data : list (list (list fval))).

Definition values (X : batch) : list R :=
  match X with
  | Batch3 _ _ _ d => concat (concat d)
  | Batch4 _ _ _ _ d => concat (concat (concat d))
  end.

Definition batch_len (X : batch) : nat :=
  match X with
  | Batch3 n _ _ _ => n
  | Batch4 n _ _ _ _ => n
  end.

(** [while x*y < n: y += 1]. *)
Fixpoint grow_rows (fuel x y n : nat) : result nat :=
  match fuel with
  | O => Raise OutOfFuel
  | S fuel' => if x * y <? n then grow_rows fuel' x (S y) n else Ok y
  end.

(** [for k, s in enumerate(S): img[j*pad+j*h : j*pad+j*h+h,
    i*pad+i*w : i*pad+i*w+w] = s] with [j, i = k//x, k%x]. *)
Fixpoint place_tiles {E : Type} (tiles : list (list (list E))) (k x h w pad : nat)
    (img : list (list E)) : result (list (list E)) :=
  match tiles with
  | [] => Ok img
  | s :: rest =>
      let j := k / x in
      let i := k mod x in
      img' ← setitem_block img (j * pad + j * h) (i * pad + i * w) h w s;
      place_tiles rest (S k) x h w pad img'
  end.

(** One entry of [S = (X - xmin)/(xmax - xmin)]. *)
Definition normalise (xmin xmax v : R) : fval := fdiv (v - xmin) (xmax - xmin).

Definition mosaic_vis (X : batch) (pad : nat) (save_path : option string)
    : result image :=
  xmin ← np_amin (values X);
  xmax ← np_amax (values X);
  let normalise := normalise xmin xmax in
  let n := batch_len X in
  let x := Z.to_nat (Zceil (sqrt (dtype (INR n)))) in
  y ← (if x =? 0 then Raise ZeroDivisionError else Ok (n / x));
  y ← grow_rows (S n) x y n;
  img ← match X with
        | Batch4 _ h w c d =>
            let tiles := fmap (M := list) (fmap (M := list) (fmap (M := list)
                           (fmap (M := list) normalise))) d in
            img ← place_tiles tiles 0 x h w pad
                    (replicate (h * y + (y - 1) * pad)
                       (replicate (w * x + (x - 1) * pad)
                          (replicate c (Finite 0))));
            Ok (Image3 img)
        | Batch3 _ h w d =>
            let tiles := fmap (M := list) (fmap (M := list) (fmap (M := list)
                           normalise)) d in
            img ← place_tiles tiles 0 x h w pad
                    (replicate (h * y + (y - 1) * pad)
                       (replicate (w * x + (x - 1) * pad) (Finite 0)));
            Ok (Image2 img)
        end;
  match save_path with
  | Some _ => Raise NameError
  | None => Ok img
  end.

(** ** Sparse integer embedding *)

(** An index into an axis of length [c]: Python counts a negative index
    from the end, and an index outside [[-c, c)] raises. *)
Definition wrap_index (c : nat) (i : Z) : result nat :=
  if ((0 <=? i) && (i <? Z.of_nat c))%Z then Ok (Z.to_nat i)
  else if ((- Z.of_nat c <=? i) && (i <? 0))%Z then Ok (Z.to_nat (i + Z.of_nat c))
  else Raise IndexError.

(** [y = np.zeros((len(x), c)); y[np.arange(len(x)), x] = 1]. *)
Definition sie (x : list Z) (c : nat) : result (list (list R)) :=
  let y := replicate (length x) (replicate c 0%R) in
  for_range (fun y k =>
      xk ← getitem x k;
      j ← wrap_index c xk;
      row ← getitem y k;
      Ok (<[k := <[j := 1%R]> row]> y))
    (seq 0 (length x)) y.

(** ** Random generators *)

(** The random source as the stream of raw real draws a numpy routine
    transforms: standard normal deviates for [np.random.normal], uniform
    deviates of [[0, 1)] for [np.random.uniform] and [np.random.choice]. *)
Definition rrng : Type := nat → R.

(** [size=(batch, size)] draws, row by row, each mapped by [f]. *)
Definition draw_matrix (st : rrng) (f : R → R) (batch size : nat)
    : list (list R) * rrng :=
  ((fun i => (fun j => f (st (i * size + j))) <$> seq 0 size) <$> seq 0 batch,
   fun k => st (batch * size + k)).

(** [np.random.normal(loc, scale, size=(batch, size))]. *)
Definition np_random_normal (st : rrng) (loc scale : R) (batch size : nat)
    : list (list R) * rrng :=
  draw_matrix st (fun z => (loc + scale * z)%R) batch size.

(** [np.random.uniform(low, high, size=(batch, size))]. *)
Definition np_random_uniform (st : rrng) (low high : R) (batch size : nat)
    : list (list R) * rrng :=
  draw_matrix st (fun u => (low + (high - low) * u)%R) batch size.

Definition uniform_nsphere (st : rrng) (batch size : nat)
    : list (list fval) * rrng :=
  let '(nns, st) := np_random_normal st 0 1 batch size in
  let nns := astype nns in
  let nnss := (fun row => sqrt (Rsum (Rsqr <$> row))) <$> nns in
  (zip_with (fun row s => (fun v => fdiv v s) <$> row) nns nnss, st).

Definition uniform_ncube (st : rrng) (batch size : nat) : list (list R) * rrng :=
  let '(m, st) := np_random_uniform st (-1) 1 batch size in (astype m, st).

Definition normal_ncube (st : rrng) (batch size : nat) : list (list R) * rrng :=
  let '(m, st) := np_random_normal st 0 1 batch size in (astype m, st).

(** [p.cumsum()]. *)
Fixpoint cumsum (acc : R) (p : list R) : list R :=
  match p with
  | [] => []
  | q :: p' => (acc + q)%R :: cumsum (acc + q)%R p'
  end.

(** [cdf.searchsorted(u, side='right')] on a sorted [cdf]: the number of
    entries that are [<= u]. *)
Definition searchsorted_right (cdf : list R) (u : R) : nat :=
  length (List.filter (fun c => if Rle_dec c u then true else false) cdf).

Fixpoint mapM {A B : Type} (f : A → result B) (l : list A) : result (list B) :=
  match l with
  | [] => Ok []
  | a :: l' => b ← f a; bs ← mapM f l'; Ok (b :: bs)
  end.

(** [np.random.choice(a, size=size, replace=True, p=p)]: the weights must
    match [a] in number, be non-negative and sum to 1; every draw [u]
    picks the entry whose cumulative weight first exceeds [u]. *)
Definition np_random_choice {A : Type} (st : rrng) (a : list A) (size : nat)
    (p : list R) : result (list A * rrng) :=
  if negb (length p =? length a) then Raise ValueError
  else if existsb (fun q => if Rlt_dec q 0 then true else false) p
  then Raise ValueError
  else if Req_dec_T (Rsum p) 1 then
    let cdf := cumsum 0 p in
    let cdf := (fun c => (c / List.last cdf 0)%R) <$> cdf in
    picks ← mapM (fun j => getitem a (searchsorted_right cdf (st j))) (seq 0 size);
    Ok (picks, fun k => st (size + k))
  else Raise ValueError.

(** [shaped_as] enters through its shape only. *)
Definition pruning_mask (st : rrng) (shape : list nat) (prune_ratio : R)
    : result (list bool * rrng) :=
  size ← getitem shape 1;
  np_random_choice st [true; false] size [(1 - prune_ratio)%R; prune_ratio].

(** * Specification vocabulary *)

(** ** Grids and fields *)

Section GridVocabulary.
Local Open Scope R_scope.

(** The side length [deg] and the spacing [dpix] the generators derive
    from [n_pix] and [size]. *)
Definition deg_of (n_pix : nat) (size : option R) : R :=
  match size with None => dtype (INR n_pix) | Some s => s end.
Definition dpix_of (n_pix : nat) (size : option R) : R :=
  dtype (deg_of n_pix size) / INR n_pix.

(** The [n_pix] pixel centres along one axis. *)
Definition axis (n_pix : nat) (size : option R) : vec :=
  (fun i => - deg_of n_pix size / 2 + 0.5 * dpix_of n_pix size
            + INR i * dpix_of n_pix size)
  <$> seq 0 n_pix.

Definition grid_X (n_pix : nat) (size : option R) : mat :=
  (fun _ => axis n_pix size) <$> axis n_pix size.
(** The second meshgrid output before and after the sign flip. *)
Definition mesh_Y (n_pix : nat) (size : option R) : mat :=
  (fun v => (fun _ => v) <$> axis n_pix size) <$> axis n_pix size.
Definition grid_Y (n_pix : nat) (size : option R) : mat :=
  mat_map Ropp (mesh_Y n_pix size).

(** The point-sampled field before any renormalisation. *)
Definition point_field (x y sigma : R) (n_pix : nat) (size : option R) : mat :=
  mat_zip (point_sample x y sigma (dpix_of n_pix size))
          (grid_X n_pix size) (mesh_Y n_pix size).

(** The field each generator computes on a non-degenerate grid. *)
Definition gaussian_field (x y sigma : R) (n_pix : nat) (size : option R)
    : list (list R) :=
  if Rlt_dec sigma (dpix_of n_pix size / 2)
  then mat_map (fun z => (z / np_sum (point_field x y sigma n_pix size)))
               (point_field x y sigma n_pix size)
  else point_field x y sigma n_pix size.

Definition mass_field (x y sigma : R) (n_pix : nat) (size : option R)
    : list (list R) :=
  if Rlt_dec sigma (dpix_of n_pix size)
  then mat_zip (fun a b => gaussian_mass a b (dpix_of n_pix size)
                             (dpix_of n_pix size) x y sigma)
               (grid_X n_pix size) (grid_Y n_pix size)
  else point_field x y sigma n_pix size.

(** Entries of a matrix as a predicate on all of them. *)
Definition all_cells (P : R → Prop) (M : mat) : Prop := Forall (Forall P) M.

(** The grid a generator returns, without the field. *)
Definition grid_of (res : result (list (list R) * list (list R) * list (list R)))
    : result (list (list R) * list (list R)) :=
  '(X, Y, _) ← res; Ok (X, Y).

(** The grid property of C3 for one pair [(n_pix, size)]: both generators
    return [n_pix]-by-[n_pix] grids whose samples start at
    [-size/2 + dpix/2], step by [dpix] and are symmetric about zero; [X]
    does not change with the row and grows strictly with the column, the
    second output does not change with the column and falls strictly with
    the row. *)
Definition grid_spec (n_pix : nat) (size : option R) : Prop :=
  let deg := deg_of n_pix size in
  let dpix := deg / INR n_pix in
  let sample := fun i : nat => - deg / 2 + dpix / 2 + INR i * dpix in
  ∀ gen, gen = make_gaussian ∨ gen = make_gaussian_mass →
  ∀ x y sigma, ∃ X Y Z, gen x y sigma n_pix size = Ok (X, Y, Z)
    ∧ has_shape n_pix n_pix X = true
    ∧ has_shape n_pix n_pix Y = true
    ∧ (∀ r c, (r < n_pix)%nat → (c < n_pix)%nat →
         cell X r c = Some (sample c) ∧ cell Y r c = Some (- sample r))
    ∧ (∀ i, (i < n_pix)%nat → sample i + sample (n_pix - 1 - i)%nat = 0)
    ∧ (∀ r r' c, (r < n_pix)%nat → (r' < n_pix)%nat → cell X r c = cell X r' c)
    ∧ (∀ r c c' a b, (c < c')%nat →
         cell X r c = Some a → cell X r c' = Some b → a < b)
    ∧ (∀ r c c', (c < n_pix)%nat → (c' < n_pix)%nat → cell Y r c = cell Y r c')
    ∧ (∀ r r' c a b, (r < r')%nat →
         cell Y r c = Some a → cell Y r' c = Some b → b < a).

End GridVocabulary.

(** ** Stacks *)

(** A generator raises exactly on a degenerate grid: no pixels or a zero
    side length. *)
Definition degenerate (n_pix : nat) (size : option R) : Prop :=
  n_pix = 0 ∨ deg_of n_pix size = 0%R.

Definition degenerate_dec (n_pix : nat) (size : option R) :
  {degenerate n_pix size} + {(0 < n_pix) ∧ deg_of n_pix size ≠ 0%R}.
Proof.
  destruct (decide (n_pix = 0)) as [Hn|Hn]; [left; by left|].
  destruct (Req_dec_T (deg_of n_pix size) 0) as [Hd|Hd]; [left; by right|].
  right. split; [lia|done].
Defined.

(** The layers the wrapper is to hold: one field per index, up to the
    shortest input. *)
Definition layers (F : R → R → R → list (list R)) (xs ys sigmas : list R)
    : list (list (list R)) :=
  zip_with (fun x p => F x p.1 p.2) xs (zip ys sigmas).

Abbreviation generator :=
  (R → R → R → nat → option R
   → result (list (list R) * list (list R) * list (list R))) (only parsing).
Abbreviation stacker :=
  (list R → list R → list R → nat → option R
   → result (list (list R) * list (list R) * list (list (list R)))) (only parsing).

(** The stack holds one layer per index below the shortest input, layer [i]
    is the field of the single-instance call on the [i]-th triple, and that
    call returns the stack's own [X] and [Y]. *)
Definition layerwise (gen : generator) (stack : stacker)
    (xs ys sigmas : list R) (n_pix : nat) (size : option R) : Prop :=
  match stack xs ys sigmas n_pix size with
  | Ok (X, Y, Zs) =>
      length Zs = length xs `min` (length ys `min` length sigmas)
      ∧ ∀ i xi yi si,
          xs !! i = Some xi → ys !! i = Some yi → sigmas !! i = Some si →
          ∃ L, Zs !! i = Some L ∧ gen xi yi si n_pix size = Ok (X, Y, L)
  | Raise _ => deg_of n_pix size = 0%R
  end.

(** A single-instance result as a stack of one layer. *)
Definition singleton_stack
    (res : result (list (list R) * list (list R) * list (list R)))
    : result (list (list R) * list (list R) * list (list (list R))) :=
  '(X, Y, Z) ← res; Ok (X, Y, [Z]).

(** The length and assertion behaviour of one wrapper. *)
Definition stack_length_spec (stack : stacker)
    (xs ys sigmas : list R) (n_pix : nat) (size : option R) : Prop :=
  let k := length xs `min` (length ys `min` length sigmas) in
  (stack xs ys sigmas n_pix size = Raise AssertionError ↔ k = 0)
  ∧ (∀ X Y Zs, stack xs ys sigmas n_pix size = Ok (X, Y, Zs) → length Zs = k)
  ∧ (0 < k → 0 < n_pix → deg_of n_pix size ≠ 0%R →
     ∃ X Y Zs, stack xs ys sigmas n_pix size = Ok (X, Y, Zs) ∧ length Zs = k).

(** ** Tiles *)

(** A plane stack (one image of the batch): [f] planes of shape [(h, w)]. *)
Definition wf_planes (f h w : nat) (tb : list (list (list R))) : Prop :=
  length tb = f ∧ Forall (fun pl => has_shape h w pl = true) tb.

Definition wf4 (t : ndarray4) : Prop :=
  let '(b, f, h, w) := shape4 t in
  length (data4 t) = b ∧ Forall (wf_planes f h w) (data4 t).

Definition cell3 (tb : list (list (list R))) (k r c : nat) : option R :=
  tb !! k ≫= fun pl => cell pl r c.

Definition cell4 (t : ndarray4) (i k r c : nat) : option R :=
  data4 t !! i ≫= fun tb => cell3 tb k r c.

(** [Ab'] is [Ab] with the block at [(px, py)] of every plane replaced by
    the matching plane of [tb]. *)
Definition placed (N px py dx : nat) (tb Ab Ab' : list (list (list R))) : Prop :=
  wf_planes (length Ab) N N Ab'
  ∧ ∀ k r c, cell3 Ab' k r c
             = if in_block px py dx dx r c
               then cell3 tb k (r - px) (c - py)
               else cell3 Ab k r c.

(** ** Mosaics *)

(** The number of columns, [int(ceil(sqrt(n)))]. *)
Definition columns (n : nat) : nat := Z.to_nat (Zceil (sqrt (dtype (INR n)))).

(** The top-left corner of tile [k] in the mosaic. *)
Definition row0 (x h pad k : nat) : nat := k / x * pad + k / x * h.
Definition col0 (x w pad k : nat) : nat := k mod x * pad + k mod x * w.


(** The mosaic of [n] tiles of shape [(h, w)] on [x] columns and [y] rows:
    tile [k] sits at row [k // x] and column [k % x] of the grid, tiles are
    [pad] pixels apart, and every pixel outside the tiles is [zero]. *)
Definition laid_out {E : Type} (n h w pad x y : nat) (zero : E)
    (tiles : list (list (list E))) (img : list (list E)) : Prop :=
  has_shape (h * y + (y - 1) * pad) (w * x + (x - 1) * pad) img = true
  ∧ (∀ k t r c, tiles !! k = Some t → r < h → c < w →
       cell img (k / x * (h + pad) + r) (k mod x * (w + pad) + c) = cell t r c)
  ∧ (∀ r c, r < h * y + (y - 1) * pad → c < w * x + (x - 1) * pad →
       (∀ k, k < n → ¬ (k / x * (h + pad) ≤ r < k / x * (h + pad) + h
                        ∧ k mod x * (w + pad) ≤ c < k mod x * (w + pad) + w)) →
       cell img r c = Some zero).

(** A batch whose nested lists have the shape it announces. *)
Definition wf_batch (X : batch) : Prop :=
  match X with
  | Batch3 n h w d =>
      length d = n ∧ Forall (fun t => has_shape h w t = true) d
  | Batch4 n h w c d =>
      length d = n ∧ Forall (fun t => has_shape h w t = true) d
      ∧ Forall (Forall (Forall (fun px => length px = c))) d
  end.

(** ** Sparse integer embedding *)

(** The indices [sie] accepts for [c] classes. *)
Definition valid_index (c : nat) (i : Z) : Prop :=
  (- Z.of_nat c ≤ i < Z.of_nat c)%Z.

#[global] Instance valid_index_dec c i : Decision (valid_index c i).
Proof. unfold valid_index. apply _. Defined.

(** The row of [c] entries that is 1 at position [i] (from the end when
    [i] is negative) and 0 elsewhere. *)
Definition one_hot (c : nat) (i : Z) : list R :=
  <[Z.to_nat (i mod Z.of_nat c) := 1%R]> (replicate c 0%R).

(** ** Further vocabulary for the generators and wrappers *)


(** Two stack results put end to end: the grid of the first, the layers of
    both. *)
Definition append_stacks
    (r1 r2 : result (list (list R) * list (list R) * list (list (list R))))
    : result (list (list R) * list (list R) * list (list (list R))) :=
  '(X, Y, Z1) ← r1; '(_, _, Z2) ← r2; Ok (X, Y, Z1 ++ Z2).

(** ** Further vocabulary for tile placement *)

(** The offset the [j]-th raw draw of the source yields for a canvas
    margin of [max_x]. *)
Definition drawn_offset (st : rng) (max_x : nat) (j : nat) : nat :=
  Z.to_nat (Z.of_nat (st j) mod Z.of_nat max_x).

(** Batch element [i] of [A] is tile [i] placed at [(px, py)] on zeros. *)
Definition tile_at (A tile : ndarray4) (f N dx i px py : nat) : Prop :=
  ∀ k r c, k < f → r < N → c < N →
    cell4 A i k r c
    = if in_block px py dx dx r c
      then cell4 tile i k (r - px) (c - py)
      else Some 0%R.

(** ** Further vocabulary for mosaics *)

(** The batch with [f] applied to every pixel value. *)
Definition batch_map (f : R → R) (X : batch) : batch :=
  match X with
  | Batch3 n h w d =>
      Batch3 n h w (fmap (M := list) (fmap (M := list) (fmap (M := list) f)) d)
  | Batch4 n h w c d =>
      Batch4 n h w c
        (fmap (M := list) (fmap (M := list) (fmap (M := list)
           (fmap (M := list) f))) d)
  end.

(** A batch without a single pixel value. *)
Definition no_pixels (X : batch) : Prop :=
  match X with
  | Batch3 n h w _ => n = 0 ∨ h = 0 ∨ w = 0
  | Batch4 n h w c _ => n = 0 ∨ h = 0 ∨ w = 0 ∨ c = 0
  end.

(** ** Vocabulary for the random generators *)

(** The draws that make up row [i] of a [size]-column sample. *)
Definition raw_row (st : rrng) (size i : nat) : list R :=
  (fun j => st (i * size + j)) <$> seq 0 size.

(** A source of uniform deviates. *)
Definition uniform_source (st : rrng) : Prop := ∀ k, (0 <= st k < 1)%R.

(** The Euclidean norm of a row. *)
Definition norm (row : list R) : R := sqrt (Rsum (Rsqr <$> row)).

(** The [N]-by-[N] plane of zeros with [t] written at row [px], column
    [py]. *)
Definition embed (N px py : nat) (t : list (list R)) : list (list R) :=
  replicate px (replicate N 0%R)
  ++ ((fun row => replicate py 0%R ++ row
                  ++ replicate (N - py - length row) 0%R) <$> t)
  ++ replicate (N - px - length t) (replicate N 0%R).

(** Plane [k] of batch element [i]. *)
Definition plane4 (t : ndarray4) (i k : nat) : option (list (list R)) :=
  data4 t !! i ≫= (.!! k).

(** * Properties *)

(** ** The exception monad *)

Lemma bind_Ok {A B : Type} (a : A) (f : A → result B) : (Ok a ≫= f) = f a.
Proof. reflexivity. Qed.

Lemma bind_Raise {A B : Type} (e : exn) (f : A → result B) :
  (Raise e ≫= f) = Raise e.
Proof. reflexivity. Qed.

Lemma getitem_Some {A : Type} (l : list A) (i : nat) (v : A) :
  l !! i = Some v → getitem l i = Ok v.
Proof. intros H. unfold getitem. by rewrite H. Qed.

Lemma setitem_layer_shape (Zs : list (list (list R))) (i n : nat) (L : list (list R)) :
  has_shape n n L = true → setitem_layer Zs i n L = Ok (<[i := L]> Zs).
Proof. intros H. unfold setitem_layer. by rewrite H. Qed.

(** ** The coordinate grid *)

Section Grid.
Local Open Scope R_scope.

Lemma dpix_neq_0 n_pix size :
  (0 < n_pix)%nat → deg_of n_pix size ≠ 0 → dpix_of n_pix size ≠ 0.
Proof.
  intros Hn Hd. unfold dpix_of, dtype.
  assert (0 < INR n_pix) by (apply lt_0_INR; lia).
  intros E. apply Hd.
  apply (Rmult_eq_reg_r (/ INR n_pix)); [| apply Rinv_neq_0_compat; lra].
  rewrite Rmult_0_l. exact E.
Qed.

Lemma dpix_eq_0 n_pix size :
  deg_of n_pix size = 0 → dpix_of n_pix size = 0.
Proof. intros E. unfold dpix_of, dtype. rewrite E. lra. Qed.

Lemma deg_default_neq_0 n_pix : (0 < n_pix)%nat → deg_of n_pix None ≠ 0.
Proof.
  intros Hn. unfold deg_of, dtype.
  assert (0 < INR n_pix) by (apply lt_0_INR; lia). lra.
Qed.

Lemma arange_grid n_pix size :
  (0 < n_pix)%nat → deg_of n_pix size ≠ 0 →
  arange (- deg_of n_pix size / 2 + 0.5 * dpix_of n_pix size)
         (deg_of n_pix size / 2) (dpix_of n_pix size)
  = Ok (axis n_pix size).
Proof.
  intros Hn Hd. unfold arange.
  destruct (Req_dec_T _ _) as [E|_]; [by apply dpix_neq_0 in E|].
  f_equal. unfold axis. f_equal. f_equal.
  assert (Hk : Zceil ((deg_of n_pix size / 2
                       - (- deg_of n_pix size / 2 + 0.5 * dpix_of n_pix size))
                      / dpix_of n_pix size) = Z.of_nat n_pix).
  { apply Zceil_eq. rewrite <- INR_IZR_INZ.
    assert (0 < INR n_pix) by (apply lt_0_INR; lia).
    replace ((deg_of n_pix size / 2
              - (- deg_of n_pix size / 2 + 0.5 * dpix_of n_pix size))
             / dpix_of n_pix size) with (INR n_pix - 0.5).
    - lra.
    - unfold dpix_of, dtype. field. split; lra. }
  rewrite Hk. apply Nat2Z.id.
Qed.

Lemma arange_degenerate n_pix size :
  deg_of n_pix size = 0 →
  arange (- deg_of n_pix size / 2 + 0.5 * dpix_of n_pix size)
         (deg_of n_pix size / 2) (dpix_of n_pix size)
  = Raise ValueError.
Proof.
  intros E. unfold arange. rewrite (dpix_eq_0 _ _ E).
  by destruct (Req_dec_T 0 0).
Qed.

Lemma length_axis n_pix size : length (axis n_pix size) = n_pix.
Proof. unfold axis. by rewrite length_fmap, length_seq. Qed.

Lemma lookup_axis n_pix size i :
  (i < n_pix)%nat →
  axis n_pix size !! i
  = Some (- deg_of n_pix size / 2 + 0.5 * dpix_of n_pix size
          + INR i * dpix_of n_pix size).
Proof.
  intros Hi. unfold axis. rewrite list_lookup_fmap.
  by rewrite lookup_seq_lt.
Qed.

Lemma cell_grid_X n_pix size r c :
  (r < n_pix)%nat → (c < n_pix)%nat →
  cell (grid_X n_pix size) r c = axis n_pix size !! c.
Proof.
  intros Hr Hc. unfold cell, grid_X. rewrite list_lookup_fmap.
  by rewrite (lookup_axis _ _ r Hr).
Qed.

Lemma cell_mesh_Y n_pix size r c :
  (r < n_pix)%nat → (c < n_pix)%nat →
  cell (mesh_Y n_pix size) r c = axis n_pix size !! r.
Proof.
  intros Hr Hc. unfold cell, mesh_Y. rewrite list_lookup_fmap.
  rewrite (lookup_axis _ _ r Hr). simpl. rewrite list_lookup_fmap.
  by rewrite (lookup_axis _ _ c Hc).
Qed.

Lemma cell_mat_map f M r c : cell (mat_map f M) r c = f <$> cell M r c.
Proof.
  unfold cell, mat_map. rewrite list_lookup_fmap.
  destruct (M !! r) as [row|]; simpl; [|done]. by rewrite list_lookup_fmap.
Qed.


Lemma cell_grid_Y n_pix size r c :
  (r < n_pix)%nat → (c < n_pix)%nat →
  cell (grid_Y n_pix size) r c = Ropp <$> axis n_pix size !! r.
Proof.
  intros Hr Hc. unfold grid_Y. by rewrite cell_mat_map, cell_mesh_Y.
Qed.

Lemma astype_id M : astype M = M.
Proof.
  unfold astype, mat_map. rewrite <- (list_fmap_id M) at 2.
  apply list_fmap_ext. intros _ row _. rewrite <- (list_fmap_id row) at 2.
  by apply list_fmap_ext.
Qed.

(** What [make_gaussian] returns on a non-degenerate grid. *)
Lemma make_gaussian_ok x y sigma n_pix size :
  (0 < n_pix)%nat → deg_of n_pix size ≠ 0 →
  make_gaussian x y sigma n_pix size
  = Ok (grid_X n_pix size, grid_Y n_pix size,
        if Rlt_dec sigma (dpix_of n_pix size / 2)
        then mat_map (fun z => z / np_sum (point_field x y sigma n_pix size))
                     (point_field x y sigma n_pix size)
        else point_field x y sigma n_pix size).
Proof.
  intros Hn Hd. unfold make_gaussian.
  fold (deg_of n_pix size). fold (dpix_of n_pix size).
  rewrite (arange_grid _ _ Hn Hd). simpl.
  rewrite astype_id. reflexivity.
Qed.


(** What [make_gaussian_mass] returns on a non-degenerate grid. *)
Lemma make_gaussian_mass_ok x y sigma n_pix size :
  (0 < n_pix)%nat → deg_of n_pix size ≠ 0 →
  make_gaussian_mass x y sigma n_pix size
  = Ok (grid_X n_pix size, grid_Y n_pix size,
        if Rlt_dec sigma (dpix_of n_pix size)
        then mat_zip (fun a b => gaussian_mass a b (dpix_of n_pix size)
                                   (dpix_of n_pix size) x y sigma)
                     (grid_X n_pix size) (grid_Y n_pix size)
        else point_field x y sigma n_pix size).
Proof.
  intros Hn Hd. unfold make_gaussian_mass.
  fold (deg_of n_pix size). fold (dpix_of n_pix size).
  rewrite (arange_grid _ _ Hn Hd). simpl.
  rewrite astype_id. reflexivity.
Qed.


End Grid.

(** ** Shapes and totals *)

Section Shapes.
Local Open Scope R_scope.

Lemma has_shape_spec {E : Type} r c (M : list (list E)) :
  has_shape r c M = true ↔ length M = r ∧ Forall (fun row => length row = c) M.
Proof.
  unfold has_shape. rewrite andb_true_iff, Nat.eqb_eq, forallb_forall, Forall_forall.
  split; intros [H1 H2]; split; try done; intros row Hrow.
  - apply Nat.eqb_eq, H2. by apply list_elem_of_In.
  - apply Nat.eqb_eq, H2. by apply list_elem_of_In.
Qed.

Lemma has_shape_grid_X n_pix size : has_shape n_pix n_pix (grid_X n_pix size) = true.
Proof.
  apply has_shape_spec. unfold grid_X. rewrite length_fmap, length_axis.
  split; [done|]. apply Forall_fmap, Forall_forall. intros v _. apply length_axis.
Qed.

Lemma has_shape_mesh_Y n_pix size : has_shape n_pix n_pix (mesh_Y n_pix size) = true.
Proof.
  apply has_shape_spec. unfold mesh_Y. rewrite length_fmap, length_axis.
  split; [done|]. apply Forall_fmap, Forall_forall. intros v _. simpl.
  by rewrite length_fmap, length_axis.
Qed.

Lemma has_shape_mat_map f r c M :
  has_shape r c M = true → has_shape r c (mat_map f M) = true.
Proof.
  rewrite !has_shape_spec. unfold mat_map. rewrite length_fmap.
  intros [H1 H2]. split; [done|]. apply Forall_fmap.
  eapply Forall_impl; [exact H2|]. intros row Hrow. simpl. by rewrite length_fmap.
Qed.

Lemma has_shape_mat_zip f r c A B :
  has_shape r c A = true → has_shape r c B = true →
  has_shape r c (mat_zip f A B) = true.
Proof.
  rewrite !has_shape_spec. unfold mat_zip. intros [HA1 HA2] [HB1 HB2]. split.
  - rewrite length_zip_with. lia.
  - clear HA1 HB1. revert B HB2. induction HA2 as [|ra A Hra _ IH]; intros B HB2.
    + constructor.
    + destruct HB2 as [|rb B Hrb HB2]; [constructor|].
      simpl. constructor; [|by apply IH].
      rewrite length_zip_with. lia.
Qed.

Lemma has_shape_grid_Y n_pix size : has_shape n_pix n_pix (grid_Y n_pix size) = true.
Proof. apply has_shape_mat_map, has_shape_mesh_Y. Qed.

Lemma has_shape_point_field x y sigma n_pix size :
  has_shape n_pix n_pix (point_field x y sigma n_pix size) = true.
Proof. apply has_shape_mat_zip; [apply has_shape_grid_X | apply has_shape_mesh_Y]. Qed.

Lemma all_cells_mat_zip (P : R → Prop) f A B :
  (∀ a b, P (f a b)) → all_cells P (mat_zip f A B).
Proof.
  intros Hf. unfold all_cells, mat_zip. revert B.
  induction A as [|ra A IH]; intros [|rb B]; simpl; try constructor; [|apply IH].
  revert rb. induction ra as [|a ra IHr]; intros [|b rb]; simpl; constructor; auto.
Qed.





Lemma point_sample_pos x y sigma dpix xm ym :
  sigma ≠ 0 → dpix ≠ 0 → 0 < point_sample x y sigma dpix xm ym.
Proof.
  intros Hs Hd. unfold point_sample, dtype.
  assert (0 < sigma ^ 2) by nra.
  assert (0 < dpix ^ 2) by nra.
  assert (0 < 2 * sigma ^ 2 * PI) by (pose proof PI_RGT_0; nra).
  assert (0 < 1 / (2 * sigma ^ 2 * PI)) by (by apply Rdiv_lt_0_compat; [lra|]).
  pose proof (exp_pos (- ((xm - x) ^ 2 + (- ym - y) ^ 2) / (2 * sigma ^ 2))).
  apply Rmult_lt_0_compat; [|done]. by apply Rmult_lt_0_compat.
Qed.


End Shapes.

(** ** Claims on the single-instance generators *)

Section GaussianClaims.
Local Open Scope R_scope.



(** C10. The two grid outputs depend on [n_pix] and [size] only: any two
    parameter triples give the same [X] and [-Y], for either generator, and
    on a non-degenerate grid that common value is [grid_X], [grid_Y]. *)
Theorem grid_independent_of_parameters (n_pix : nat) (size : option R)
    (x y sigma x' y' sigma' : R) :
  grid_of (make_gaussian x y sigma n_pix size)
    = grid_of (make_gaussian x' y' sigma' n_pix size)
  ∧ grid_of (make_gaussian_mass x y sigma n_pix size)
    = grid_of (make_gaussian_mass x' y' sigma' n_pix size)
  ∧ grid_of (make_gaussian x y sigma n_pix size)
    = grid_of (make_gaussian_mass x' y' sigma' n_pix size)
  ∧ ((0 < n_pix)%nat → deg_of n_pix size ≠ 0 →
     grid_of (make_gaussian x y sigma n_pix size)
       = Ok (grid_X n_pix size, grid_Y n_pix size)).
Proof.
  repeat split.
  - unfold make_gaussian. destruct (arange _ _ _); reflexivity.
  - unfold make_gaussian_mass. destruct (arange _ _ _); reflexivity.
  - unfold make_gaussian, make_gaussian_mass. destruct (arange _ _ _); reflexivity.
  - intros Hn Hd. by rewrite make_gaussian_ok.
Qed.



Lemma cell_Some_lt {E : Type} (M : list (list E)) m n r c v :
  has_shape m n M = true → cell M r c = Some v → (r < m)%nat ∧ (c < n)%nat.
Proof.
  intros [Hlen Hrows]%has_shape_spec. unfold cell.
  destruct (M !! r) as [row|] eqn:Hrow; simpl; [|done]. intros Hc.
  split.
  - rewrite <- Hlen. by eapply lookup_lt_Some.
  - rewrite Forall_forall in Hrows.
    rewrite <- (Hrows row); [by eapply lookup_lt_Some|].
    by eapply list_elem_of_lookup_2.
Qed.

(** C3 (amended). For every [n_pix > 0] and every positive side length
    ([size > 0], or the default [n_pix]) the grid of both generators
    satisfies [grid_spec]. *)
Theorem grid_layout (n_pix : nat) (size : option R) :
  (0 < n_pix)%nat → 0 < deg_of n_pix size → grid_spec n_pix size.
Proof.
  intros Hn Hd gen Hgen x y sigma.
  assert (Hd' : deg_of n_pix size ≠ 0) by lra.
  assert (HN : 0 < INR n_pix) by (apply lt_0_INR; lia).
  assert (Hdp : 0 < deg_of n_pix size / INR n_pix) by (by apply Rdiv_lt_0_compat).
  assert (Hcells : ∀ r c, (r < n_pix)%nat → (c < n_pix)%nat →
    cell (grid_X n_pix size) r c
      = Some (- deg_of n_pix size / 2 + deg_of n_pix size / INR n_pix / 2
              + INR c * (deg_of n_pix size / INR n_pix))
    ∧ cell (grid_Y n_pix size) r c
      = Some (- (- deg_of n_pix size / 2 + deg_of n_pix size / INR n_pix / 2
                 + INR r * (deg_of n_pix size / INR n_pix)))).
  { intros r c Hr Hc. rewrite cell_grid_X, cell_grid_Y by done.
    rewrite !lookup_axis by done. unfold dpix_of, dtype. simpl.
    split; f_equal; lra. }
  assert (Hret : ∃ Z, gen x y sigma n_pix size
                       = Ok (grid_X n_pix size, grid_Y n_pix size, Z)).
  { destruct Hgen as [-> | ->]; eexists;
      [by rewrite make_gaussian_ok | by rewrite make_gaussian_mass_ok]. }
  destruct Hret as [Z Hret].
  exists (grid_X n_pix size), (grid_Y n_pix size), Z. split; [exact Hret|].
  split; [apply has_shape_grid_X|]. split; [apply has_shape_grid_Y|].
  split; [exact Hcells|]. split.
  { intros i Hi. rewrite minus_INR by lia. rewrite minus_INR by lia.
    simpl. field. lra. }
  split.
  { intros r r' c Hr Hr'. destruct (decide (c < n_pix)%nat) as [Hc|Hc].
    - by rewrite !cell_grid_X.
    - unfold cell, grid_X. rewrite !list_lookup_fmap, !lookup_axis by done.
      reflexivity. }
  split.
  { intros r c c' a b Hcc Ha Hb.
    destruct (cell_Some_lt _ _ _ _ _ _ (has_shape_grid_X _ _) Ha) as [Hr Hc].
    destruct (cell_Some_lt _ _ _ _ _ _ (has_shape_grid_X _ _) Hb) as [_ Hc'].
    destruct (Hcells r c Hr Hc) as [E _]. destruct (Hcells r c' Hr Hc') as [E' _].
    rewrite E in Ha. rewrite E' in Hb. injection Ha as <-. injection Hb as <-.
    apply lt_INR in Hcc. nra. }
  split.
  { intros r c c' Hc Hc'. destruct (decide (r < n_pix)%nat) as [Hr|Hr].
    - by rewrite !cell_grid_Y.
    - unfold cell, grid_Y, mesh_Y, mat_map.
      rewrite !list_lookup_fmap, (lookup_ge_None_2 (axis n_pix size) r);
        [done|rewrite length_axis; lia]. }
  intros r r' c a b Hrr Ha Hb.
  destruct (cell_Some_lt _ _ _ _ _ _ (has_shape_grid_Y _ _) Ha) as [Hr Hc].
  destruct (cell_Some_lt _ _ _ _ _ _ (has_shape_grid_Y _ _) Hb) as [Hr' _].
  destruct (Hcells r c Hr Hc) as [_ E]. destruct (Hcells r' c Hr' Hc) as [_ E'].
  rewrite E in Ha. rewrite E' in Hb. injection Ha as <-. injection Hb as <-.
  apply lt_INR in Hrr. nra.
Qed.

Lemma grid_layout_witness : grid_spec 3 (Some 6).
Proof. apply (grid_layout 3 (Some 6)); [lia | simpl; lra]. Defined.

(** The grid the code builds for a negative side length: the samples run
    downwards. *)
Example grid_negative_size :
  grid_of (make_gaussian 0 0 1 2 (Some (-2)))
  = Ok ([[1 / 2; - 1 / 2]; [1 / 2; - 1 / 2]],
        [[- 1 / 2; - 1 / 2]; [1 / 2; 1 / 2]]).
Proof.
  rewrite make_gaussian_ok; [|lia|simpl; lra].
  unfold grid_of, grid_X, grid_Y, mesh_Y, mat_map, axis, dpix_of, deg_of, dtype.
  simpl. repeat f_equal; lra.
Qed.

(** C3 as stated, for every [size], fails: with [n_pix = 2] and
    [size = -2] the returned [X] falls along the columns. *)
Lemma grid_layout_counterexample : ¬ grid_spec 2 (Some (-2)).
Proof.
  intros H.
  destruct (H make_gaussian (or_introl eq_refl) 0 0 1)
    as (X & Y & Z & Hret & _ & _ & _ & _ & _ & Hinc & _).
  pose proof grid_negative_size as Hg. rewrite Hret in Hg.
  simpl in Hg. injection Hg as HX _. subst X.
  specialize (Hinc 0%nat 0%nat 1%nat (1 / 2) (- 1 / 2)).
  assert (1 / 2 < - 1 / 2); [|lra].
  apply Hinc; [lia|reflexivity|reflexivity].
Qed.




End GaussianClaims.

(** ** The stacking wrappers *)

Lemma has_shape_gaussian_field x y sigma n_pix size :
  has_shape n_pix n_pix (gaussian_field x y sigma n_pix size) = true.
Proof.
  unfold gaussian_field. destruct (Rlt_dec _ _).
  - apply has_shape_mat_map, has_shape_point_field.
  - apply has_shape_point_field.
Qed.

Lemma has_shape_mass_field x y sigma n_pix size :
  has_shape n_pix n_pix (mass_field x y sigma n_pix size) = true.
Proof.
  unfold mass_field. destruct (Rlt_dec _ _).
  - apply has_shape_mat_zip; [apply has_shape_grid_X | apply has_shape_grid_Y].
  - apply has_shape_point_field.
Qed.

Lemma arange_degenerate' n_pix size :
  degenerate n_pix size →
  arange (- deg_of n_pix size / 2 + 0.5 * dpix_of n_pix size)
         (deg_of n_pix size / 2) (dpix_of n_pix size)
  = Raise ValueError.
Proof.
  intros [Hn|Hd]; [|by apply arange_degenerate].
  unfold arange.
  assert (E : dpix_of n_pix size = 0%R).
  { unfold dpix_of. subst n_pix. simpl. unfold Rdiv. rewrite Rinv_0. lra. }
  rewrite E. by destruct (Req_dec_T 0 0).
Qed.

Lemma make_gaussian_raises x y sigma n_pix size :
  degenerate n_pix size → make_gaussian x y sigma n_pix size = Raise ValueError.
Proof.
  intros Hd. unfold make_gaussian.
  fold (deg_of n_pix size). fold (dpix_of n_pix size).
  by rewrite (arange_degenerate' _ _ Hd).
Qed.

Lemma make_gaussian_mass_raises x y sigma n_pix size :
  degenerate n_pix size → make_gaussian_mass x y sigma n_pix size = Raise ValueError.
Proof.
  intros Hd. unfold make_gaussian_mass.
  fold (deg_of n_pix size). fold (dpix_of n_pix size).
  by rewrite (arange_degenerate' _ _ Hd).
Qed.

Section StackProps.

Variable gen : R → R → R → nat → option R
               → result (list (list R) * list (list R) * list (list R)).
Variable junk : R.
Variables (n_pix : nat) (size : option R).

Lemma length_layers F xs ys sigmas :
  length (layers F xs ys sigmas)
  = length xs `min` (length ys `min` length sigmas).
Proof. unfold layers. by rewrite length_zip_with, length_zip. Qed.

Lemma lookup_layers F xs ys sigmas i xi yi si :
  xs !! i = Some xi → ys !! i = Some yi → sigmas !! i = Some si →
  layers F xs ys sigmas !! i = Some (F xi yi si).
Proof.
  intros Hx Hy Hs. unfold layers. rewrite lookup_zip_with, Hx. simpl.
  by rewrite lookup_zip_with, Hy, Hs.
Qed.

Section Succeeds.

Variables (X Y : list (list R)) (F : R → R → R → list (list R)).
Hypothesis gen_ok : ∀ x y s, gen x y s n_pix size = Ok (X, Y, F x y s).
Hypothesis F_shape : ∀ x y s, has_shape n_pix n_pix (F x y s) = true.

Variables xs ys sigmas : list R.

Let body := fun (Zs : list (list (list R))) (i : nat) =>
  xi ← getitem xs i; yi ← getitem ys i; si ← getitem sigmas i;
  '(_, _, Li) ← gen xi yi si n_pix size;
  setitem_layer Zs i n_pix Li.

(** The loop writes layer [i] at index [i] and leaves the rest alone. *)
Lemma for_range_layers m : ∀ a Zs,
  a + m ≤ length xs `min` (length ys `min` length sigmas) →
  length Zs = length xs `min` (length ys `min` length sigmas) →
  ∃ Zs', for_range body (seq a m) Zs = Ok Zs'
    ∧ length Zs' = length Zs
    ∧ (∀ i, a ≤ i < a + m → Zs' !! i = layers F xs ys sigmas !! i)
    ∧ (∀ i, ¬ (a ≤ i < a + m) → Zs' !! i = Zs !! i).
Proof.
  induction m as [|m IH]; intros a Zs Ham HZs.
  { exists Zs. simpl. split; [done|]. split; [done|]. split; [intros; lia|done]. }
  destruct (lookup_lt_is_Some_2 xs a) as [xa Hxa]; [lia|].
  destruct (lookup_lt_is_Some_2 ys a) as [ya Hya]; [lia|].
  destruct (lookup_lt_is_Some_2 sigmas a) as [sa Hsa]; [lia|].
  destruct (IH (S a) (<[a := F xa ya sa]> Zs)) as (Zs' & Hrun & Hlen & Hin & Hout).
  { lia. } { by rewrite length_insert. }
  assert (Hstep : body Zs a = Ok (<[a := F xa ya sa]> Zs)).
  { unfold body, getitem. rewrite Hxa, Hya, Hsa. simpl. rewrite gen_ok. simpl.
    by apply setitem_layer_shape. }
  exists Zs'. split; [|split; [|split]].
  - cbn [seq for_range]. rewrite Hstep. exact Hrun.
  - by rewrite Hlen, length_insert.
  - intros i Hi. destruct (decide (i = a)) as [->|Hne].
    + rewrite Hout by lia. rewrite list_lookup_insert_eq by lia.
      symmetry. by apply lookup_layers.
    + apply Hin. lia.
  - intros i Hi. rewrite Hout by lia. apply list_lookup_insert_ne. lia.
Qed.

Lemma stack_with_ok :
  0 < length xs `min` (length ys `min` length sigmas) →
  stack_with gen junk xs ys sigmas n_pix size
  = Ok (X, Y, layers F xs ys sigmas).
Proof.
  intros Hk. unfold stack_with.
  destruct (Nat.eqb_spec (length xs `min` (length ys `min` length sigmas)) 0)
    as [E|_]; [lia|].
  destruct (lookup_lt_is_Some_2 xs 0) as [x0 Hx0]; [lia|].
  destruct (lookup_lt_is_Some_2 ys 0) as [y0 Hy0]; [lia|].
  destruct (lookup_lt_is_Some_2 sigmas 0) as [s0 Hs0]; [lia|].
  rewrite (getitem_Some _ _ _ Hx0), bind_Ok.
  rewrite (getitem_Some _ _ _ Hy0), bind_Ok.
  rewrite (getitem_Some _ _ _ Hs0), bind_Ok.
  rewrite gen_ok, bind_Ok. cbv beta iota.
  rewrite (setitem_layer_shape _ _ _ _ (F_shape x0 y0 s0)), bind_Ok.
  set (k := length xs `min` (length ys `min` length sigmas)) in *.
  set (Zs0 := <[0 := F x0 y0 s0]> (np_ndarray junk k n_pix)).
  destruct (for_range_layers (k - 1) 1 Zs0) as (Zs' & Hrun & Hlen & Hin & Hout).
  { fold k. lia. }
  { unfold Zs0, np_ndarray. by rewrite length_insert, length_replicate. }
  fold body. rewrite Hrun, bind_Ok. f_equal. f_equal.
  assert (HlenZ : length Zs' = k).
  { rewrite Hlen. unfold Zs0, np_ndarray. by rewrite length_insert, length_replicate. }
  apply list_eq. intros i.
  destruct (decide (i < k)) as [Hi|Hi].
  - destruct (decide (i = 0)) as [->|Hne].
    + rewrite Hout by lia. unfold Zs0.
      rewrite list_lookup_insert_eq
        by (unfold np_ndarray; rewrite length_replicate; lia).
      symmetry. by apply lookup_layers.
    + apply Hin. lia.
  - rewrite !lookup_ge_None_2; [done| |lia].
    rewrite length_layers. fold k. lia.
Qed.

End Succeeds.

Lemma stack_with_empty xs ys sigmas :
  length xs `min` (length ys `min` length sigmas) = 0 →
  stack_with gen junk xs ys sigmas n_pix size = Raise AssertionError.
Proof. intros E. unfold stack_with. by rewrite E. Qed.

Lemma stack_with_raises e xs ys sigmas :
  (∀ x y s, gen x y s n_pix size = Raise e) →
  0 < length xs `min` (length ys `min` length sigmas) →
  stack_with gen junk xs ys sigmas n_pix size = Raise e.
Proof.
  intros Hgen Hk. unfold stack_with.
  destruct (Nat.eqb_spec (length xs `min` (length ys `min` length sigmas)) 0)
    as [E|_]; [lia|].
  destruct (lookup_lt_is_Some_2 xs 0) as [x0 Hx0]; [lia|].
  destruct (lookup_lt_is_Some_2 ys 0) as [y0 Hy0]; [lia|].
  destruct (lookup_lt_is_Some_2 sigmas 0) as [s0 Hs0]; [lia|].
  rewrite (getitem_Some _ _ _ Hx0), bind_Ok.
  rewrite (getitem_Some _ _ _ Hy0), bind_Ok.
  rewrite (getitem_Some _ _ _ Hs0), bind_Ok.
  by rewrite Hgen.
Qed.

End StackProps.

Lemma make_gaussian_field x y sigma n_pix size :
  0 < n_pix → deg_of n_pix size ≠ 0%R →
  make_gaussian x y sigma n_pix size
  = Ok (grid_X n_pix size, grid_Y n_pix size, gaussian_field x y sigma n_pix size).
Proof. apply make_gaussian_ok. Qed.

Lemma make_gaussian_mass_field x y sigma n_pix size :
  0 < n_pix → deg_of n_pix size ≠ 0%R →
  make_gaussian_mass x y sigma n_pix size
  = Ok (grid_X n_pix size, grid_Y n_pix size, mass_field x y sigma n_pix size).
Proof. apply make_gaussian_mass_ok. Qed.

(** What the two wrappers return, by cases on the inputs. *)
Lemma make_gaussian_stack_cases junk xs ys sigmas n_pix size :
  make_gaussian_stack junk xs ys sigmas n_pix size
  = if length xs `min` (length ys `min` length sigmas) =? 0
    then Raise AssertionError
    else if degenerate_dec n_pix size then Raise ValueError
    else Ok (grid_X n_pix size, grid_Y n_pix size,
             layers (fun x y s => gaussian_field x y s n_pix size) xs ys sigmas).
Proof.
  unfold make_gaussian_stack.
  destruct (Nat.eqb_spec (length xs `min` (length ys `min` length sigmas)) 0)
    as [E|E]; [by apply stack_with_empty|].
  destruct (degenerate_dec n_pix size) as [Hd|[Hn Hd]].
  - apply stack_with_raises; [|lia]. intros. by apply make_gaussian_raises.
  - apply (stack_with_ok _ _ _ _ _ _
             (fun x y s => gaussian_field x y s n_pix size)); [| |lia].
    + intros. by apply make_gaussian_field.
    + intros. apply has_shape_gaussian_field.
Qed.

Lemma make_gaussian_mass_stack_cases junk xs ys sigmas n_pix size :
  make_gaussian_mass_stack junk xs ys sigmas n_pix size
  = if length xs `min` (length ys `min` length sigmas) =? 0
    then Raise AssertionError
    else if degenerate_dec n_pix size then Raise ValueError
    else Ok (grid_X n_pix size, grid_Y n_pix size,
             layers (fun x y s => mass_field x y s n_pix size) xs ys sigmas).
Proof.
  unfold make_gaussian_mass_stack.
  destruct (Nat.eqb_spec (length xs `min` (length ys `min` length sigmas)) 0)
    as [E|E]; [by apply stack_with_empty|].
  destruct (degenerate_dec n_pix size) as [Hd|[Hn Hd]].
  - apply stack_with_raises; [|lia]. intros. by apply make_gaussian_mass_raises.
  - apply (stack_with_ok _ _ _ _ _ _
             (fun x y s => mass_field x y s n_pix size)); [| |lia].
    + intros. by apply make_gaussian_mass_field.
    + intros. apply has_shape_mass_field.
Qed.

Section StackClaims.

Lemma layerwise_from_cases (gen : generator) (stack : stacker) F
    xs ys sigmas n_pix size :
  0 < length xs `min` (length ys `min` length sigmas) → 0 < n_pix →
  (∀ x y s, deg_of n_pix size ≠ 0%R →
     gen x y s n_pix size = Ok (grid_X n_pix size, grid_Y n_pix size, F x y s)) →
  stack xs ys sigmas n_pix size
  = (if length xs `min` (length ys `min` length sigmas) =? 0
     then Raise AssertionError
     else if degenerate_dec n_pix size then Raise ValueError
     else Ok (grid_X n_pix size, grid_Y n_pix size, layers F xs ys sigmas)) →
  layerwise gen stack xs ys sigmas n_pix size.
Proof.
  intros Hk Hn Hgen Hstack. unfold layerwise. rewrite Hstack.
  destruct (Nat.eqb_spec (length xs `min` (length ys `min` length sigmas)) 0)
    as [E|_]; [lia|].
  destruct (degenerate_dec n_pix size) as [[Hn0|Hd]|[_ Hd]]; [lia|done|].
  split; [apply length_layers|].
  intros i xi yi si Hx Hy Hs. exists (F xi yi si).
  split; [by apply lookup_layers | by apply Hgen].
Qed.

(** C4. For non-empty inputs and [n_pix > 0], each wrapper returns a stack
    whose layer [i] is the field of its single-instance generator on
    [(xs[i], ys[i], sigmas[i])], with that call's [X] and [Y]; on
    one-element inputs the wrapper returns the single-instance result as a
    stack of one layer. *)
Theorem stack_layers (junk : R) (xs ys sigmas : list R) (n_pix : nat)
    (size : option R) :
  0 < length xs `min` (length ys `min` length sigmas) → 0 < n_pix →
  layerwise make_gaussian (make_gaussian_stack junk) xs ys sigmas n_pix size
  ∧ layerwise make_gaussian_mass (make_gaussian_mass_stack junk)
      xs ys sigmas n_pix size
  ∧ (∀ x0 y0 s0,
       make_gaussian_stack junk [x0] [y0] [s0] n_pix size
       = singleton_stack (make_gaussian x0 y0 s0 n_pix size))
  ∧ (∀ x0 y0 s0,
       make_gaussian_mass_stack junk [x0] [y0] [s0] n_pix size
       = singleton_stack (make_gaussian_mass x0 y0 s0 n_pix size)).
Proof.
  intros Hk Hn. split; [|split; [|split]].
  - eapply layerwise_from_cases; [done|done| |apply make_gaussian_stack_cases].
    intros. by apply make_gaussian_field.
  - eapply layerwise_from_cases; [done|done| |apply make_gaussian_mass_stack_cases].
    intros. by apply make_gaussian_mass_field.
  - intros x0 y0 s0. rewrite make_gaussian_stack_cases. simpl.
    destruct (degenerate_dec n_pix size) as [Hd|[_ Hd]].
    + by rewrite make_gaussian_raises.
    + by rewrite make_gaussian_field.
  - intros x0 y0 s0. rewrite make_gaussian_mass_stack_cases. simpl.
    destruct (degenerate_dec n_pix size) as [Hd|[_ Hd]].
    + by rewrite make_gaussian_mass_raises.
    + by rewrite make_gaussian_mass_field.
Qed.

Lemma stack_layers_witness :
  layerwise make_gaussian (make_gaussian_stack 0) [0; 1; 2]%R [0; 1]%R [1; 2; 3]%R 4 None
  ∧ make_gaussian_stack 0 [1%R] [2%R] [3%R] 4 None
    = singleton_stack (make_gaussian 1 2 3 4 None).
Proof.
  assert (Hk : 0 < length [0; 1; 2]%R `min` (length [0; 1]%R `min` length [1; 2; 3]%R))
    by (simpl; lia).
  assert (Hn : 0 < 4) by lia.
  destruct (stack_layers 0 [0; 1; 2]%R [0; 1]%R [1; 2; 3]%R 4 None Hk Hn)
    as (H1 & _ & H3 & _).
  split; [exact H1 | apply H3].
Defined.

Lemma stack_length_from_cases (stack : stacker) F xs ys sigmas n_pix size :
  stack xs ys sigmas n_pix size
  = (if length xs `min` (length ys `min` length sigmas) =? 0
     then Raise AssertionError
     else if degenerate_dec n_pix size then Raise ValueError
     else Ok (grid_X n_pix size, grid_Y n_pix size, layers F xs ys sigmas)) →
  stack_length_spec stack xs ys sigmas n_pix size.
Proof.
  intros Hstack. unfold stack_length_spec. rewrite Hstack.
  destruct (Nat.eqb_spec (length xs `min` (length ys `min` length sigmas)) 0)
    as [E|E].
  { split; [done|]. split; [done|]. intros; lia. }
  destruct (degenerate_dec n_pix size) as [Hd|[Hn Hd]].
  { split; [split; [done|lia]|]. split; [done|].
    intros _ Hn Hdeg. destruct Hd; [lia|done]. }
  split; [split; [done|lia]|]. split.
  - intros X Y Zs [= _ _ <-]. apply length_layers.
  - intros _ _ _. eexists _, _, _. split; [done|]. apply length_layers.
Qed.

(** C5. Each wrapper's stack has as many layers as the shortest of the
    three inputs, and the wrapper raises [AssertionError], returning
    nothing, exactly when that length is zero. *)
Theorem stack_length_and_assertion (junk : R) (xs ys sigmas : list R)
    (n_pix : nat) (size : option R) :
  stack_length_spec (make_gaussian_stack junk) xs ys sigmas n_pix size
  ∧ stack_length_spec (make_gaussian_mass_stack junk) xs ys sigmas n_pix size.
Proof.
  split.
  - eapply stack_length_from_cases, make_gaussian_stack_cases.
  - eapply stack_length_from_cases, make_gaussian_mass_stack_cases.
Qed.

Example stack_truncates :
  ∃ X Y Zs, make_gaussian_stack 0 [0; 1; 2]%R [0; 1]%R [1; 2; 3]%R 4 None
            = Ok (X, Y, Zs) ∧ length Zs = 2.
Proof.
  destruct (stack_length_from_cases (make_gaussian_stack 0) _ _ _ _ _ _
              (make_gaussian_stack_cases 0 [0; 1; 2]%R [0; 1]%R [1; 2; 3]%R 4 None))
    as (_ & _ & H).
  apply H; [simpl; lia|lia|]. unfold deg_of, dtype. simpl. lra.
Qed.

End StackClaims.

(** ** Slice assignment *)

Section Blocks.
Context {E : Type}.
Implicit Types (dst src : list (list E)).

Lemma has_shape_lookup m n (M : list (list E)) r row :
  has_shape m n M = true → M !! r = Some row → length row = n.
Proof.
  intros [_ Hrows]%has_shape_spec Hr. rewrite Forall_forall in Hrows.
  apply Hrows. by eapply list_elem_of_lookup_2.
Qed.

Lemma cell_is_Some m n (M : list (list E)) r c :
  has_shape m n M = true → r < m → c < n → is_Some (cell M r c).
Proof.
  intros HM Hr Hc. pose proof HM as [Hlen _]%has_shape_spec.
  destruct (lookup_lt_is_Some_2 M r) as [row Hrow]; [lia|].
  unfold cell. rewrite Hrow. simpl. apply lookup_lt_is_Some_2.
  by rewrite (has_shape_lookup _ _ _ _ _ HM Hrow).
Qed.

Lemma cell_None_ge m n (M : list (list E)) r c :
  has_shape m n M = true → ¬ (r < m ∧ c < n) → cell M r c = None.
Proof.
  intros HM Hrc. destruct (cell M r c) as [v|] eqn:Hv; [|done].
  apply (cell_Some_lt _ _ _ _ _ _ HM) in Hv. tauto.
Qed.

Lemma in_block_spec r0 c0 h w r c :
  in_block r0 c0 h w r c = true ↔ r0 ≤ r < r0 + h ∧ c0 ≤ c < c0 + w.
Proof.
  unfold in_block.
  rewrite !andb_true_iff, !Nat.leb_le, !Nat.ltb_lt. lia.
Qed.

Lemma setitem_block_ok dst src H W r0 c0 h w :
  has_shape H W dst = true → has_shape h w src = true →
  r0 + h ≤ H → c0 + w ≤ W →
  ∃ dst', setitem_block dst r0 c0 h w src = Ok dst'
    ∧ has_shape H W dst' = true
    ∧ ∀ r c, cell dst' r c
             = if in_block r0 c0 h w r c
               then cell src (r - r0) (c - c0)
               else cell dst r c.
Proof.
  intros Hdst Hsrc Hr Hc. pose proof Hdst as [Hlen Hrows]%has_shape_spec.
  eexists. split; [|split].
  - unfold setitem_block. rewrite Hsrc. simpl.
    replace (r0 + h <=? length dst) with true
      by (symmetry; apply Nat.leb_le; lia).
    replace (forallb (fun row => c0 + w <=? length row) dst) with true; [done|].
    symmetry. apply forallb_forall. intros row Hrow%list_elem_of_In.
    rewrite Forall_forall in Hrows. rewrite (Hrows row Hrow).
    apply Nat.leb_le. lia.
  - apply has_shape_spec. rewrite length_imap. split; [done|].
    apply Forall_lookup. intros i row' Hi. rewrite list_lookup_imap in Hi.
    destruct (dst !! i) as [row|] eqn:Hrow; simpl in Hi; [|done].
    injection Hi as <-. rewrite length_imap.
    by apply (has_shape_lookup _ _ _ _ _ Hdst Hrow).
  - intros r c. unfold cell at 1. rewrite list_lookup_imap.
    destruct (in_block r0 c0 h w r c) eqn:Hin.
    + apply in_block_spec in Hin.
      destruct (cell_is_Some _ _ _ r c Hdst) as [v Hv]; [lia|lia|].
      destruct (cell_is_Some _ _ _ (r - r0) (c - c0) Hsrc) as [s Hs]; [lia|lia|].
      unfold cell in Hv. destruct (dst !! r) as [row|]; simpl in *; [|done].
      rewrite list_lookup_imap, Hv. simpl.
      replace (in_block r0 c0 h w r c) with true
        by (symmetry; apply in_block_spec; lia).
      by rewrite Hs.
    + unfold cell. destruct (dst !! r) as [row|]; simpl; [|done].
      rewrite list_lookup_imap. destruct (row !! c) as [v|]; simpl; [|done].
      by rewrite Hin.
Qed.

End Blocks.

(** ** Tile placement *)

Section Tiles.



Lemma setitem_planes_ok N f px py dx : ∀ Ab tb,
  wf_planes f N N Ab → wf_planes f dx dx tb → px + dx ≤ N → py + dx ≤ N →
  ∃ Ab', setitem_planes Ab px py dx tb = Ok Ab' ∧ placed N px py dx tb Ab Ab'.
Proof.
  intros Ab tb [HlA HA] [Hlt Ht] Hpx Hpy. subst f.
  revert tb Hlt Ht. induction HA as [|pl Ab Hpl HA IH]; intros tb Hlt Ht.
  - destruct tb; [|done]. exists []. split; [done|]. split; [by split|].
    intros k r c. unfold cell3. rewrite lookup_nil. simpl. by destruct (in_block _ _ _ _ _ _).
  - destruct Ht as [|tp tb Htp Ht]; [done|]. simpl in Hlt.
    destruct (setitem_block_ok pl tp N N px py dx dx Hpl Htp Hpx Hpy)
      as (pl' & Hrun & Hshape & Hcell).
    destruct (IH tb) as (Ab' & Hrest & [Hlen' HAb'] & Hcells); [lia|done|].
    exists (pl' :: Ab'). split; [|split; [split|]].
    + cbn [setitem_planes]. rewrite Hrun, bind_Ok, Hrest, bind_Ok. done.
    + simpl. by rewrite Hlen'.
    + by constructor.
    + intros [|k] r c; unfold cell3; simpl.
      * apply Hcell.
      * apply Hcells.
Qed.

Section Loop.

Variables (b f N dx : nat).
Variables (pos_x pos_y : list Z) (td : list (list (list (list R)))).
Hypothesis Hlx : length pos_x = b.
Hypothesis Hly : length pos_y = b.
Hypothesis Hlt : length td = b.
Hypothesis Hx : ∀ j v, pos_x !! j = Some v → Z.to_nat v + dx ≤ N.
Hypothesis Hy : ∀ j v, pos_y !! j = Some v → Z.to_nat v + dx ≤ N.
Hypothesis Htd : Forall (wf_planes f dx dx) td.

Let body := fun (A : list (list (list (list R)))) (i : nat) =>
  px ← getitem pos_x i; py ← getitem pos_y i;
  tb ← getitem td i; Ab ← getitem A i;
  Ab' ← setitem_planes Ab (Z.to_nat px) (Z.to_nat py) dx tb;
  Ok (<[i := Ab']> A).

Lemma place_loop m : ∀ a A,
  a + m ≤ b → length A = b → Forall (wf_planes f N N) A →
  ∃ A', for_range body (seq a m) A = Ok A'
    ∧ length A' = b
    ∧ Forall (wf_planes f N N) A'
    ∧ (∀ i, a ≤ i < a + m →
         ∃ px py tb Ab Ab',
           pos_x !! i = Some px ∧ pos_y !! i = Some py ∧ td !! i = Some tb
           ∧ A !! i = Some Ab ∧ A' !! i = Some Ab'
           ∧ placed N (Z.to_nat px) (Z.to_nat py) dx tb Ab Ab')
    ∧ (∀ i, ¬ (a ≤ i < a + m) → A' !! i = A !! i).
Proof.
  induction m as [|m IH]; intros a A Ham HlA HA.
  { exists A. split; [done|]. split; [done|]. split; [done|].
    split; [intros; lia|done]. }
  destruct (lookup_lt_is_Some_2 pos_x a) as [px Hpx]; [lia|].
  destruct (lookup_lt_is_Some_2 pos_y a) as [py Hpy]; [lia|].
  destruct (lookup_lt_is_Some_2 td a) as [tb Htb]; [lia|].
  destruct (lookup_lt_is_Some_2 A a) as [Ab HAb]; [lia|].
  assert (HwA : wf_planes f N N Ab)
    by (rewrite Forall_forall in HA; apply HA; by eapply list_elem_of_lookup_2).
  assert (Hwt : wf_planes f dx dx tb)
    by (rewrite Forall_forall in Htd; apply Htd; by eapply list_elem_of_lookup_2).
  destruct (setitem_planes_ok N f (Z.to_nat px) (Z.to_nat py) dx Ab tb HwA Hwt
              (Hx _ _ Hpx) (Hy _ _ Hpy)) as (Ab' & Hset & Hplaced).
  assert (HwA' : wf_planes f N N Ab').
  { destruct Hplaced as [Hw _]. destruct HwA as [<- _]. exact Hw. }
  assert (Hstep : body A a = Ok (<[a := Ab']> A)).
  { unfold body.
    rewrite (getitem_Some _ _ _ Hpx), bind_Ok, (getitem_Some _ _ _ Hpy), bind_Ok.
    rewrite (getitem_Some _ _ _ Htb), bind_Ok, (getitem_Some _ _ _ HAb), bind_Ok.
    by rewrite Hset, bind_Ok. }
  destruct (IH (S a) (<[a := Ab']> A)) as (A' & Hrun & HlA' & HA' & Hin & Hout).
  { lia. } { by rewrite length_insert. }
  { apply Forall_insert; done. }
  exists A'. split; [|split; [done|split; [done|split]]].
  - cbn [seq for_range]. by rewrite Hstep, bind_Ok.
  - intros i Hi. destruct (decide (i = a)) as [->|Hne].
    + exists px, py, tb, Ab, Ab'. repeat (split; [done|]).
      split; [|done]. rewrite Hout by lia. apply list_lookup_insert_eq. lia.
    + destruct (Hin i) as (px' & py' & tb' & Ab0 & Ab1 & H1 & H2 & H3 & H4 & H5 & H6);
        [lia|].
      exists px', py', tb', Ab0, Ab1. repeat (split; [done|]).
      split; [|done]. by rewrite list_lookup_insert_ne in H4.
  - intros i Hi. rewrite Hout by lia. apply list_lookup_insert_ne. lia.
Qed.

End Loop.

End Tiles.

Section TileClaims.

Lemma wf4_np_zeros4 b f N : wf4 (np_zeros4 b f N N).
Proof.
  unfold wf4, np_zeros4. simpl. rewrite length_replicate. split; [done|].
  apply Forall_replicate. split; [by rewrite length_replicate|].
  apply Forall_replicate. apply has_shape_spec. rewrite length_replicate.
  split; [done|]. apply Forall_replicate. by rewrite length_replicate.
Qed.

Lemma cell3_zeros f N k r c :
  k < f → r < N → c < N →
  cell3 (replicate f (replicate N (replicate N 0%R))) k r c = Some 0%R.
Proof.
  intros Hk Hr Hc. unfold cell3, cell.
  rewrite lookup_replicate_2 by done. simpl.
  rewrite lookup_replicate_2 by done. simpl.
  by rewrite lookup_replicate_2.
Qed.



End TileClaims.

(** ** Mosaics *)

Section MosaicArithmetic.

Lemma columns_spec n :
  1 ≤ n → 1 ≤ columns n ∧ (columns n - 1) * (columns n - 1) < n ≤ columns n * columns n.
Proof.
  intros Hn. unfold columns, dtype.
  assert (HN : (1 <= INR n)%R) by (change 1%R with (INR 1); by apply le_INR).
  pose proof (sqrt_pos (INR n)) as Hpos.
  pose proof (sqrt_sqrt (INR n) ltac:(lra)) as Hsq.
  pose proof (Zceil_bound (sqrt (INR n))) as [Hlo Hhi].
  set (r := sqrt (INR n)) in *. set (z := Zceil r) in *.
  assert (Hr1 : (1 <= r)%R) by nra.
  assert (Hz : (1 ≤ z)%Z) by (apply le_IZR; lra).
  assert (Hx : INR (Z.to_nat z) = IZR z) by (rewrite INR_IZR_INZ, Z2Nat.id; [done|lia]).
  split; [lia|]. split.
  - apply INR_lt. rewrite mult_INR, minus_INR by lia. rewrite Hx. simpl. nra.
  - apply INR_le. rewrite mult_INR, Hx. nra.
Qed.

Lemma grow_rows_spec n x :
  0 < x →
  ∃ y, grow_rows (S n) x (n / x) n = Ok y
    ∧ n ≤ x * y ∧ ∀ y', n ≤ x * y' → y ≤ y'.
Proof.
  intros Hx. pose proof (Nat.div_mod_eq n x) as Hdiv.
  pose proof (Nat.mod_upper_bound n x ltac:(lia)) as Hmod.
  set (q := n / x) in *. set (m := n mod x) in *.
  cbn [grow_rows]. destruct (Nat.ltb_spec (x * q) n) as [Hlt|Hge].
  - destruct n as [|n']; [lia|]. cbn [grow_rows].
    destruct (Nat.ltb_spec (x * S q) (S n')) as [Hlt'|Hge']; [nia|].
    exists (S q). split; [done|]. split; [done|]. intros y' Hy'. nia.
  - exists q. split; [done|]. split; [done|]. intros y' Hy'. nia.
Qed.

End MosaicArithmetic.

Section PlaceTiles.
Context {E : Type}.
Variables (x y h w pad : nat).
Hypothesis Hx : 0 < x.

Lemma block_fits k :
  k < x * y →
  row0 x h pad k + h ≤ h * y + (y - 1) * pad ∧ col0 x w pad k + w ≤ w * x + (x - 1) * pad.
Proof.
  intros Hk. unfold row0, col0.
  assert (Hj : k / x < y) by (apply Nat.Div0.div_lt_upper_bound; lia).
  pose proof (Nat.mod_upper_bound k x ltac:(lia)) as Hi.
  set (j := k / x) in *. set (i := k mod x) in *.
  assert (j * pad ≤ (y - 1) * pad) by (apply Nat.mul_le_mono_r; lia).
  assert (i * pad ≤ (x - 1) * pad) by (apply Nat.mul_le_mono_r; lia).
  assert (j * h + h ≤ h * y) by nia.
  assert (i * w + w ≤ w * x) by nia.
  lia.
Qed.

Lemma blocks_disjoint k k' r c :
  k ≠ k' →
  in_block (row0 x h pad k) (col0 x w pad k) h w r c = true →
  in_block (row0 x h pad k') (col0 x w pad k') h w r c = true → False.
Proof.
  intros Hne [Hr Hc]%in_block_spec [Hr' Hc']%in_block_spec.
  unfold row0, col0 in *.
  pose proof (Nat.div_mod_eq k x) as Hk. pose proof (Nat.div_mod_eq k' x) as Hk'.
  set (j := k / x) in *. set (i := k mod x) in *.
  set (j' := k' / x) in *. set (i' := k' mod x) in *.
  assert (Hj : j = j').
  { destruct (Nat.lt_trichotomy j j') as [Hlt|[Heq|Hgt]]; [|done|].
    - assert ((j + 1) * (pad + h) ≤ j' * (pad + h)) by (apply Nat.mul_le_mono_r; lia).
      nia.
    - assert ((j' + 1) * (pad + h) ≤ j * (pad + h)) by (apply Nat.mul_le_mono_r; lia).
      nia. }
  assert (Hi : i = i').
  { destruct (Nat.lt_trichotomy i i') as [Hlt|[Heq|Hgt]]; [|done|].
    - assert ((i + 1) * (pad + w) ≤ i' * (pad + w)) by (apply Nat.mul_le_mono_r; lia).
      nia.
    - assert ((i' + 1) * (pad + w) ≤ i * (pad + w)) by (apply Nat.mul_le_mono_r; lia).
      nia. }
  apply Hne. rewrite Hk, Hk', Hj, Hi. done.
Qed.

(** The loop pastes tile [k] at its corner, touches nothing outside the
    tiles' blocks, and keeps every property the canvas and the tiles share. *)
Lemma place_tiles_ok : ∀ (tiles : list (list (list E))) k0 img,
  has_shape (h * y + (y - 1) * pad) (w * x + (x - 1) * pad) img = true →
  Forall (fun t => has_shape h w t = true) tiles →
  k0 + length tiles ≤ x * y →
  ∃ img', place_tiles tiles k0 x h w pad img = Ok img'
    ∧ has_shape (h * y + (y - 1) * pad) (w * x + (x - 1) * pad) img' = true
    ∧ (∀ k t r c, tiles !! k = Some t →
         in_block (row0 x h pad (k0 + k)) (col0 x w pad (k0 + k)) h w r c = true →
         cell img' r c = cell t (r - row0 x h pad (k0 + k)) (c - col0 x w pad (k0 + k)))
    ∧ (∀ r c,
         (∀ k, k < length tiles →
               in_block (row0 x h pad (k0 + k)) (col0 x w pad (k0 + k)) h w r c = false) →
         cell img' r c = cell img r c)
    ∧ (∀ P : E → Prop,
         (∀ r c p, cell img r c = Some p → P p) →
         Forall (fun t => ∀ r c p, cell t r c = Some p → P p) tiles →
         ∀ r c p, cell img' r c = Some p → P p).
Proof.
  induction tiles as [|t tiles IH]; intros k0 img Himg Htiles Hk.
  { exists img. split; [done|]. split; [done|]. split; [intros k t r c Hl; done|].
    split; [done|]. intros P HP _. exact HP. }
  apply Forall_cons in Htiles as [Ht Htiles]. simpl in Hk.
  destruct (block_fits k0) as [Hfr Hfc]; [lia|].
  destruct (setitem_block_ok img t _ _ (row0 x h pad k0) (col0 x w pad k0) h w Himg Ht Hfr Hfc)
    as (img1 & Hset & Himg1 & Hcell1).
  destruct (IH (S k0) img1 Himg1 Htiles) as (img' & Hrun & Himg' & Hin & Hout & Hall);
    [lia|].
  exists img'. split; [|split; [done|split; [|split]]].
  - cbn [place_tiles]. fold (row0 x h pad k0). fold (col0 x w pad k0). by rewrite Hset, bind_Ok.
  - intros [|k] t' r c Hl Hb.
    + simpl in Hl. injection Hl as <-. rewrite Nat.add_0_r in *.
      rewrite Hout.
      * by rewrite Hcell1, Hb.
      * intros k Hklt. destruct (in_block (row0 x h pad (S k0 + k)) _ _ _ _ _) eqn:Hb'; [|done].
        exfalso. apply (blocks_disjoint k0 (S k0 + k) r c); [lia|done|done].
    + simpl in Hl. replace (k0 + S k) with (S k0 + k) in * by lia.
      by apply (Hin k t').
  - intros r c Hnone. rewrite Hout.
    + rewrite Hcell1. specialize (Hnone 0 ltac:(simpl; lia)).
      rewrite Nat.add_0_r in Hnone. by rewrite Hnone.
    + intros k Hklt. specialize (Hnone (S k) ltac:(simpl; lia)).
      by replace (k0 + S k) with (S k0 + k) in Hnone by lia.
  - intros P HP HPt. apply Forall_cons in HPt as [HPt HPts].
    apply Hall; [|done]. intros r c p. rewrite Hcell1.
    destruct (in_block _ _ _ _ _ _); [apply HPt | apply HP].
Qed.

End PlaceTiles.

Section Extremes.
Local Open Scope R_scope.

Lemma foldl_Rmin_spec l : ∀ v,
  (foldl Rmin v l <= v ∧ ∀ a, a ∈ l → foldl Rmin v l <= a)
  ∧ foldl Rmin v l ∈ v :: l.
Proof.
  induction l as [|b l IH]; intros v; simpl.
  { split; [split; [lra|]|by left]. intros a Ha. by apply elem_of_nil in Ha. }
  destruct (IH (Rmin v b)) as [[Hle Hall] Hin].
  pose proof (Rmin_l v b). pose proof (Rmin_r v b).
  split; [split; [lra|]|].
  - intros a [->|Ha]%elem_of_cons; [lra|by apply Hall].
  - apply elem_of_cons in Hin as [Heq|Hin]; [|by do 2 right].
    rewrite Heq. unfold Rmin. destruct (Rle_dec v b); [by left|right; by left].
Qed.

Lemma foldl_Rmax_spec l : ∀ v,
  (v <= foldl Rmax v l ∧ ∀ a, a ∈ l → a <= foldl Rmax v l)
  ∧ foldl Rmax v l ∈ v :: l.
Proof.
  induction l as [|b l IH]; intros v; simpl.
  { split; [split; [lra|]|by left]. intros a Ha. by apply elem_of_nil in Ha. }
  destruct (IH (Rmax v b)) as [[Hle Hall] Hin].
  pose proof (Rmax_l v b). pose proof (Rmax_r v b).
  split; [split; [lra|]|].
  - intros a [->|Ha]%elem_of_cons; [lra|by apply Hall].
  - apply elem_of_cons in Hin as [Heq|Hin]; [|by do 2 right].
    rewrite Heq. unfold Rmax. destruct (Rle_dec v b); [right; by left|by left].
Qed.

(** On a non-empty array the two reductions return its least and its
    greatest entry. *)
Lemma extremes_spec (l : list R) :
  l ≠ [] →
  ∃ lo hi, np_amin l = Ok lo ∧ np_amax l = Ok hi
    ∧ (∀ a, a ∈ l → lo <= a <= hi) ∧ lo ∈ l ∧ hi ∈ l.
Proof.
  destruct l as [|v l]; [done|]. intros _.
  destruct (foldl_Rmin_spec l v) as [[Hlo1 Hlo2] Hlo3].
  destruct (foldl_Rmax_spec l v) as [[Hhi1 Hhi2] Hhi3].
  exists (foldl Rmin v l), (foldl Rmax v l).
  split; [done|]. split; [done|]. split; [|done].
  intros a [->|Ha]%elem_of_cons; [lra|]. split; [by apply Hlo2|by apply Hhi2].
Qed.


Lemma normalise_zero_range m v : normalise m m v = NonFinite.
Proof.
  unfold normalise, fdiv. destruct (Req_dec_T (m - m) 0) as [_|E]; [done|].
  exfalso. apply E. lra.
Qed.

End Extremes.

Section MosaicLayout.

Lemma has_shape_fmap2 {A B : Type} (f : A → B) r c (M : list (list A)) :
  has_shape r c M = true →
  has_shape r c (fmap (M := list) (fmap (M := list) f) M) = true.
Proof.
  rewrite !has_shape_spec. rewrite length_fmap.
  intros [H1 H2]. split; [done|]. apply Forall_fmap.
  eapply Forall_impl; [exact H2|]. intros row Hrow. simpl. by rewrite length_fmap.
Qed.

Lemma cell_fmap2 {A B : Type} (f : A → B) (M : list (list A)) r c :
  cell (fmap (M := list) (fmap (M := list) f) M) r c = f <$> cell M r c.
Proof.
  unfold cell. rewrite list_lookup_fmap.
  destruct (M !! r) as [row|]; simpl; [|done]. by rewrite list_lookup_fmap.
Qed.

Lemma has_shape_replicate {A : Type} r c (z : A) :
  has_shape r c (replicate r (replicate c z)) = true.
Proof.
  apply has_shape_spec. rewrite length_replicate. split; [done|].
  apply Forall_replicate. by rewrite length_replicate.
Qed.

Lemma cell_replicate {A : Type} m n (z : A) r c :
  r < m → c < n → cell (replicate m (replicate n z)) r c = Some z.
Proof.
  intros Hr Hc. unfold cell. rewrite lookup_replicate_2 by done. simpl.
  by rewrite lookup_replicate_2.
Qed.

Lemma place_tiles_laid_out {E : Type} n h w pad x y (zero : E)
    (tiles : list (list (list E))) :
  0 < x → length tiles = n → n ≤ x * y →
  Forall (fun t => has_shape h w t = true) tiles →
  ∃ img,
    place_tiles tiles 0 x h w pad
      (replicate (h * y + (y - 1) * pad) (replicate (w * x + (x - 1) * pad) zero))
    = Ok img
    ∧ laid_out n h w pad x y zero tiles img
    ∧ ∀ P : E → Prop, P zero →
        Forall (fun t => ∀ r c p, cell t r c = Some p → P p) tiles →
        ∀ r c p, cell img r c = Some p → P p.
Proof.
  intros Hx Hlen Hn Htiles.
  destruct (place_tiles_ok x y h w pad Hx tiles 0
              (replicate (h * y + (y - 1) * pad)
                 (replicate (w * x + (x - 1) * pad) zero)))
    as (img & Hrun & Hshape & Hin & Hout & Hall).
  { apply has_shape_replicate. } { done. } { lia. }
  exists img. split; [done|]. split; [split; [done|split]|].
  - intros k t r c Hk Hr Hc.
    replace (k / x * (h + pad) + r) with (row0 x h pad k + r) by (unfold row0; lia).
    replace (k mod x * (w + pad) + c) with (col0 x w pad k + c) by (unfold col0; lia).
    rewrite (Hin k t); [|done|].
    + change (0 + k) with k. f_equal; lia.
    + change (0 + k) with k. apply in_block_spec. lia.
  - intros r c Hr Hc Hnone. rewrite Hout; [by apply cell_replicate|].
    intros k Hk. change (0 + k) with k.
    destruct (in_block _ _ _ _ _ _) eqn:Hb; [|done].
    exfalso. apply in_block_spec in Hb. apply (Hnone k); [lia|].
    unfold row0, col0 in Hb. lia.
  - intros P Hzero HP. apply Hall; [|done].
    intros r c p Hp.
    destruct (cell_Some_lt _ _ _ _ _ _ (has_shape_replicate _ _ zero) Hp) as [Hr Hc].
    rewrite cell_replicate in Hp by done. by injection Hp as <-.
Qed.

End MosaicLayout.

Section MosaicRun.

Lemma cell_Forall {A : Type} (Q : A → Prop) (t : list (list A)) r c v :
  Forall (Forall Q) t → cell t r c = Some v → Q v.
Proof.
  intros Ht. unfold cell. destruct (t !! r) as [row|] eqn:Hrow; simpl; [|done].
  intros Hv. rewrite Forall_lookup in Ht. specialize (Ht r row Hrow).
  rewrite Forall_lookup in Ht. by apply (Ht c v).
Qed.

Lemma np_amin_Ok_nonempty l lo : np_amin l = Ok lo → l ≠ [].
Proof. by destruct l. Qed.

Lemma batch_len_pos X : wf_batch X → values X ≠ [] → 1 ≤ batch_len X.
Proof.
  destruct X as [n h w d|n h w c d]; simpl.
  - intros [<- _] Hv. destruct d; [done|simpl; lia].
  - intros [<- _] Hv. destruct d; [done|simpl; lia].
Qed.

(** What [mosaic_vis] computes once the extremes are known. *)
Lemma mosaic_vis_run X pad lo hi :
  wf_batch X → np_amin (values X) = Ok lo → np_amax (values X) = Ok hi →
  ∃ x y,
    1 ≤ x ∧ (x - 1) * (x - 1) < batch_len X ≤ x * x
    ∧ batch_len X ≤ x * y ∧ (∀ y', batch_len X ≤ x * y' → y ≤ y')
    ∧ match X with
      | Batch3 n h w d =>
          ∃ img, mosaic_vis X pad None = Ok (Image2 img)
            ∧ laid_out n h w pad x y (Finite 0)
                (fmap (M := list) (fmap (M := list) (fmap (M := list)
                   (normalise lo hi))) d) img
            ∧ ∀ P : fval → Prop, P (Finite 0) →
                Forall (fun v => P (normalise lo hi v)) (values X) →
                ∀ r c p, cell img r c = Some p → P p
      | Batch4 n h w ch d =>
          ∃ img, mosaic_vis X pad None = Ok (Image3 img)
            ∧ laid_out n h w pad x y (replicate ch (Finite 0))
                (fmap (M := list) (fmap (M := list) (fmap (M := list)
                   (fmap (M := list) (normalise lo hi)))) d) img
            ∧ ∀ P : fval → Prop, P (Finite 0) →
                Forall (fun v => P (normalise lo hi v)) (values X) →
                ∀ r c px, cell img r c = Some px → Forall P px
      end.
Proof.
  intros Hwf Hlo Hhi.
  pose proof (batch_len_pos X Hwf (np_amin_Ok_nonempty _ _ Hlo)) as Hn.
  destruct (columns_spec (batch_len X) Hn) as (Hx1 & Hx2).
  destruct (grow_rows_spec (batch_len X) (columns (batch_len X)) ltac:(lia))
    as (y & Hgrow & Hy1 & Hy2).
  exists (columns (batch_len X)), y.
  split; [done|]. split; [done|]. split; [done|]. split; [done|].
  assert (Hx0 : (columns (batch_len X) =? 0) = false) by (apply Nat.eqb_neq; lia).
  destruct X as [n h w d|n h w ch d]; cbn [batch_len wf_batch] in *.
  - destruct Hwf as [Hlen Hshape].
    destruct (place_tiles_laid_out n h w pad (columns n) y (Finite 0)
                (fmap (M := list) (fmap (M := list) (fmap (M := list)
                   (normalise lo hi))) d))
      as (img & Hrun & Hlaid & Hall).
    { lia. } { by rewrite length_fmap. } { done. }
    { apply Forall_fmap. eapply Forall_impl; [exact Hshape|].
      intros t Ht. by apply has_shape_fmap2. }
    exists img. split; [|split; [done|]].
    + unfold mosaic_vis. rewrite Hlo, bind_Ok, Hhi, bind_Ok.
      cbn [batch_len]. fold (columns n). rewrite Hx0, bind_Ok, Hgrow, bind_Ok.
      by rewrite Hrun, !bind_Ok.
    + intros P Hzero HP. apply Hall; [done|].
      cbn [values] in HP. rewrite 2!Forall_concat in HP.
      apply Forall_fmap. eapply Forall_impl; [exact HP|].
      intros t Ht r c p. simpl. rewrite cell_fmap2.
      destruct (cell t r c) as [v|] eqn:Hv; simpl; [|done].
      intros [= <-]. by apply (cell_Forall _ _ _ _ _ Ht Hv).
  - destruct Hwf as (Hlen & Hshape & _).
    destruct (place_tiles_laid_out n h w pad (columns n) y (replicate ch (Finite 0))
                (fmap (M := list) (fmap (M := list) (fmap (M := list)
                   (fmap (M := list) (normalise lo hi)))) d))
      as (img & Hrun & Hlaid & Hall).
    { lia. } { by rewrite length_fmap. } { done. }
    { apply Forall_fmap. eapply Forall_impl; [exact Hshape|].
      intros t Ht. by apply has_shape_fmap2. }
    exists img. split; [|split; [done|]].
    + unfold mosaic_vis. rewrite Hlo, bind_Ok, Hhi, bind_Ok.
      cbn [batch_len]. fold (columns n). rewrite Hx0, bind_Ok, Hgrow, bind_Ok.
      by rewrite Hrun, !bind_Ok.
    + intros P Hzero HP. apply (Hall (Forall P)); [by apply Forall_replicate|].
      cbn [values] in HP. rewrite 3!Forall_concat in HP.
      apply Forall_fmap. eapply Forall_impl; [exact HP|].
      intros t Ht r c px. simpl. rewrite cell_fmap2.
      destruct (cell t r c) as [pv|] eqn:Hv; simpl; [|done].
      intros [= <-]. apply Forall_fmap.
      by apply (cell_Forall _ _ _ _ _ Ht Hv).
Qed.

End MosaicRun.

Section MosaicClaims.

Lemma fmap3_ext {A B : Type} (f g : A → B) (d : list (list (list A))) :
  Forall (Forall (Forall (fun v => f v = g v))) d →
  fmap (M := list) (fmap (M := list) (fmap (M := list) f)) d
  = fmap (M := list) (fmap (M := list) (fmap (M := list) g)) d.
Proof.
  intros H. apply Forall_fmap_ext. eapply Forall_impl; [exact H|].
  intros t Ht. apply Forall_fmap_ext. eapply Forall_impl; [exact Ht|].
  intros row Hrow. by apply Forall_fmap_ext.
Qed.

Lemma fmap4_ext {A B : Type} (f g : A → B) (d : list (list (list (list A)))) :
  Forall (Forall (Forall (Forall (fun v => f v = g v)))) d →
  fmap (M := list) (fmap (M := list) (fmap (M := list) (fmap (M := list) f))) d
  = fmap (M := list) (fmap (M := list) (fmap (M := list) (fmap (M := list) g))) d.
Proof.
  intros H. apply Forall_fmap_ext. eapply Forall_impl; [exact H|].
  intros t Ht. by apply fmap3_ext.
Qed.



(** C9. On a non-empty batch whose values are all equal the extremes
    coincide, every entry of the normalisation [(X - xmin)/(xmax - xmin)]
    is a division by zero, and the mosaic is returned with those
    non-finite entries in its tiles. *)
Theorem mosaic_vis_zero_range (X : batch) (pad : nat) (m : R) :
  wf_batch X → values X ≠ [] → (∀ a, a ∈ values X → a = m) →
  np_amin (values X) = Ok m ∧ np_amax (values X) = Ok m
  ∧ (∀ v, normalise m m v = NonFinite)
  ∧ ∃ x y,
      match X with
      | Batch3 n h w d =>
          ∃ img, mosaic_vis X pad None = Ok (Image2 img)
            ∧ laid_out n h w pad x y (Finite 0)
                (fmap (M := list) (fmap (M := list) (fmap (M := list)
                   (fun _ => NonFinite))) d) img
      | Batch4 n h w ch d =>
          ∃ img, mosaic_vis X pad None = Ok (Image3 img)
            ∧ laid_out n h w pad x y (replicate ch (Finite 0))
                (fmap (M := list) (fmap (M := list) (fmap (M := list)
                   (fmap (M := list) (fun _ => NonFinite)))) d) img
      end.
Proof.
  intros Hwf Hne Hall.
  destruct (extremes_spec (values X) Hne) as (lo & hi & Hlo & Hhi & _ & Hlo_in & Hhi_in).
  apply Hall in Hlo_in. apply Hall in Hhi_in. subst lo hi.
  split; [done|]. split; [done|]. split; [apply normalise_zero_range|].
  destruct (mosaic_vis_run X pad m m Hwf Hlo Hhi) as (x & y & _ & _ & _ & _ & Hrun).
  exists x, y.
  destruct X as [n h w d|n h w ch d].
  - destruct Hrun as (img & Hret & Hlaid & _). exists img. split; [done|].
    rewrite <- (fmap3_ext (normalise m m) (fun _ => NonFinite) d); [done|].
    do 3 (apply Forall_true; intros ?). apply normalise_zero_range.
  - destruct Hrun as (img & Hret & Hlaid & _). exists img. split; [done|].
    rewrite <- (fmap4_ext (normalise m m) (fun _ => NonFinite) d); [done|].
    do 4 (apply Forall_true; intros ?). apply normalise_zero_range.
Qed.

(** A single uniform pixel already takes the division-by-zero branch. *)
Lemma mosaic_vis_zero_range_witness :
  normalise 5 5 5 = NonFinite
  ∧ ∃ img, mosaic_vis (Batch3 1 1 1 [[[5%R]]]) 0 None = Ok (Image2 img)
           ∧ cell img 0 0 = Some NonFinite.
Proof.
  destruct (mosaic_vis_zero_range (Batch3 1 1 1 [[[5%R]]]) 0 5)
    as (_ & _ & Hdiv & x & y & img & Hret & _ & Hcells & _).
  - split; [reflexivity|]. repeat constructor.
  - discriminate.
  - intros a Ha. simpl in Ha. apply list_elem_of_singleton in Ha. exact Ha.
  - split; [apply Hdiv|]. exists img. split; [exact Hret|].
    specialize (Hcells 0 [[NonFinite]] 0 0 eq_refl ltac:(lia) ltac:(lia)).
    rewrite Nat.Div0.div_0_l, Nat.Div0.mod_0_l in Hcells. exact Hcells.
Defined.

End MosaicClaims.

(** * Further properties *)

(** ** Loops that update one slot per index *)

Section PointwiseLoop.
Context {A : Type}.
Variables (body : list A → nat → result (list A)) (g : nat → A → A) (n : nat).
Hypothesis body_step : ∀ l i v,
  length l = n → l !! i = Some v → body l i = Ok (<[i := g i v]> l).

Lemma for_range_pointwise m : ∀ a l,
  a + m ≤ n → length l = n →
  ∃ l', for_range body (seq a m) l = Ok l'
    ∧ length l' = n
    ∧ (∀ i v, a ≤ i < a + m → l !! i = Some v → l' !! i = Some (g i v))
    ∧ (∀ i, ¬ (a ≤ i < a + m) → l' !! i = l !! i).
Proof.
  induction m as [|m IH]; intros a l Ham Hl.
  { exists l. split; [done|]. split; [done|]. split; [intros; lia|done]. }
  destruct (lookup_lt_is_Some_2 l a) as [v Hv]; [lia|].
  destruct (IH (S a) (<[a := g a v]> l)) as (l' & Hrun & Hlen & Hin & Hout).
  { lia. } { by rewrite length_insert. }
  exists l'. split; [|split; [done|split]].
  - cbn [seq for_range]. by rewrite (body_step l a v Hl Hv), bind_Ok.
  - intros i w Hi Hw. destruct (decide (i = a)) as [->|Hne].
    + rewrite Hout by lia. rewrite list_lookup_insert_eq by lia. congruence.
    + apply Hin; [lia|]. by rewrite list_lookup_insert_ne.
  - intros i Hi. rewrite Hout by lia. apply list_lookup_insert_ne. lia.
Qed.

Lemma for_range_imap l :
  length l = n → for_range body (seq 0 n) l = Ok (imap g l).
Proof.
  intros Hl. destruct (for_range_pointwise n 0 l) as (l' & Hrun & Hlen & Hin & _);
    [lia|done|].
  rewrite Hrun. f_equal. apply list_eq. intros i. rewrite list_lookup_imap.
  destruct (l !! i) as [v|] eqn:Hv; simpl.
  - apply Hin; [|done]. apply lookup_lt_Some in Hv. lia.
  - apply lookup_ge_None. apply lookup_ge_None in Hv. lia.
Qed.

End PointwiseLoop.

(** ** Sparse integer embedding *)

Section Sie.

Lemma wrap_index_valid c i :
  valid_index c i → wrap_index c i = Ok (Z.to_nat (i mod Z.of_nat c)).
Proof.
  unfold valid_index, wrap_index. intros Hi.
  destruct (Z.leb_spec 0 i), (Z.ltb_spec i (Z.of_nat c)); simpl; try lia.
  - by rewrite Z.mod_small by lia.
  - destruct (Z.leb_spec (- Z.of_nat c) i), (Z.ltb_spec i 0); simpl; try lia.
    f_equal. f_equal.
    rewrite <- (Z.mod_add i 1 (Z.of_nat c)) by lia.
    rewrite Z.mod_small; lia.
Qed.

Lemma wrap_index_invalid c i :
  ¬ valid_index c i → wrap_index c i = Raise IndexError.
Proof.
  unfold valid_index, wrap_index. intros Hi.
  destruct (Z.leb_spec 0 i), (Z.ltb_spec i (Z.of_nat c)); simpl; try lia;
    destruct (Z.leb_spec (- Z.of_nat c) i), (Z.ltb_spec i 0); simpl; try lia; done.
Qed.

Lemma sie_valid x c :
  Forall (valid_index c) x → sie x c = Ok (one_hot c <$> x).
Proof.
  intros Hx. unfold sie.
  rewrite (for_range_imap _
             (fun k row => match x !! k with
                           | Some i => <[Z.to_nat (i mod Z.of_nat c) := 1%R]> row
                           | None => row
                           end) (length x)).
  - f_equal. apply list_eq. intros k. rewrite list_lookup_imap, list_lookup_fmap.
    destruct (x !! k) as [i|] eqn:Hk; simpl.
    + rewrite lookup_replicate_2 by (by eapply lookup_lt_Some). reflexivity.
    + apply lookup_ge_None in Hk.
      by rewrite (proj1 (lookup_replicate_None _ _ _) Hk).
  - intros l k row Hl Hrow.
    destruct (lookup_lt_is_Some_2 x k) as [i Hi].
    { rewrite <- Hl. by eapply lookup_lt_Some. }
    rewrite (getitem_Some _ _ _ Hi), bind_Ok.
    rewrite wrap_index_valid, bind_Ok
      by (rewrite Forall_lookup in Hx; by eapply Hx).
    by rewrite (getitem_Some _ _ _ Hrow), bind_Ok, Hi.
  - by rewrite length_replicate.
Qed.

Lemma sie_loop_invalid x c m : ∀ a (y : list (list R)),
  a + m ≤ length x → length y = length x →
  (∃ k i, a ≤ k < a + m ∧ x !! k = Some i ∧ ¬ valid_index c i) →
  for_range (fun y k =>
      xk ← getitem x k;
      j ← wrap_index c xk;
      row ← getitem y k;
      Ok (<[k := <[j := 1%R]> row]> y))
    (seq a m) y = Raise IndexError.
Proof.
  induction m as [|m IH]; intros a y Ham Hy (k & i & Hk & Hi & Hbad); [lia|].
  destruct (lookup_lt_is_Some_2 x a) as [xa Hxa]; [lia|].
  destruct (lookup_lt_is_Some_2 y a) as [row Hrow]; [lia|].
  cbn [seq for_range]. rewrite (getitem_Some _ _ _ Hxa), bind_Ok.
  destruct (decide (valid_index c xa)) as [Hv|Hv].
  - rewrite (wrap_index_valid _ _ Hv), bind_Ok.
    rewrite (getitem_Some _ _ _ Hrow), !bind_Ok.
    apply IH; [lia|by rewrite length_insert|].
    exists k, i. split; [|done].
    destruct (decide (k = a)) as [->|]; [|lia]. congruence.
  - by rewrite (wrap_index_invalid _ _ Hv).
Qed.

(** What [sie] returns, by cases on its input. *)
Lemma sie_cases x c :
  sie x c = if decide (Forall (valid_index c) x)
            then Ok (one_hot c <$> x) else Raise IndexError.
Proof.
  destruct (decide (Forall (valid_index c) x)) as [Hx|Hx]; [by apply sie_valid|].
  apply not_Forall_Exists in Hx; [|apply _].
  apply Exists_exists in Hx as (i & Hi & Hbad).
  apply list_elem_of_lookup in Hi as [k Hk].
  unfold sie. apply sie_loop_invalid; [lia|by rewrite length_replicate|].
  exists k, i. split; [|done]. apply lookup_lt_Some in Hk. lia.
Qed.

End Sie.

Section SieProperties.

Lemma one_hot_position c i :
  valid_index c i → Z.to_nat (i mod Z.of_nat c) < c.
Proof.
  unfold valid_index. intros Hi.
  pose proof (Z.mod_pos_bound i (Z.of_nat c) ltac:(lia)). lia.
Qed.

Lemma Rsum_replicate_0 c : Rsum (replicate c 0%R) = 0%R.
Proof. induction c as [|c IH]; simpl; [done|]. rewrite IH. lra. Qed.

Lemma Rsum_insert_one c : ∀ j, j < c → Rsum (<[j := 1%R]> (replicate c 0%R)) = 1%R.
Proof.
  induction c as [|c IH]; intros j Hj; [lia|].
  destruct j as [|j]; simpl.
  - rewrite Rsum_replicate_0. lra.
  - rewrite IH by lia. lra.
Qed.

Lemma lookup_one_hot c i j :
  valid_index c i → j < c →
  one_hot c i !! j
  = Some (if decide (Z.of_nat j = i mod Z.of_nat c)%Z then 1%R else 0%R).
Proof.
  intros Hi Hj. pose proof (one_hot_position c i Hi) as Hp. unfold one_hot.
  pose proof (Z.mod_pos_bound i (Z.of_nat c) ltac:(lia)) as Hm.
  destruct (decide (Z.of_nat j = i mod Z.of_nat c)%Z) as [E|E].
  - replace (Z.to_nat (i mod Z.of_nat c)) with j by lia.
    apply list_lookup_insert_eq. by rewrite length_replicate.
  - rewrite list_lookup_insert_ne by lia. by apply lookup_replicate_2.
Qed.

(** X1. With every label in [[-c, c)], [sie] returns a [len(x)]-by-[c]
    array whose row [k] is 1 in column [x[k]] (counted from the end for a
    negative label) and 0 elsewhere, so every row sums to 1. *)
Theorem sie_one_hot (x : list Z) (c : nat) :
  Forall (valid_index c) x →
  ∃ y, sie x c = Ok y
    ∧ has_shape (length x) c y = true
    ∧ (∀ k i j, x !! k = Some i → j < c →
         cell y k j
         = Some (if decide (Z.of_nat j = i mod Z.of_nat c)%Z then 1%R else 0%R))
    ∧ Forall (fun row => Rsum row = 1%R) y.
Proof.
  intros Hx. exists (one_hot c <$> x). split; [by apply sie_valid|]. split; [|split].
  - apply has_shape_spec. rewrite length_fmap. split; [done|].
    apply Forall_fmap, Forall_forall. intros i _. simpl. unfold one_hot.
    by rewrite length_insert, length_replicate.
  - intros k i j Hk Hj. unfold cell. rewrite list_lookup_fmap, Hk. simpl.
    apply lookup_one_hot; [|done]. rewrite Forall_lookup in Hx. by eapply Hx.
  - apply Forall_fmap. eapply Forall_impl; [exact Hx|].
    intros i Hi. simpl. unfold one_hot. apply Rsum_insert_one.
    by apply one_hot_position.
Qed.

Lemma sie_one_hot_witness :
  sie [2%Z] 5 = Ok [[0; 0; 1; 0; 0]%R].
Proof.
  destruct (sie_one_hot [2%Z] 5) as (y & Hy & _).
  - repeat constructor; unfold valid_index; lia.
  - rewrite Hy. rewrite sie_valid in Hy.
    + injection Hy as <-. reflexivity.
    + repeat constructor; unfold valid_index; lia.
Defined.



(** X3. Negative labels count from the end: shifting every label of
    [[0, c)] down by [c] gives the same embedding. *)
Theorem sie_negative_wrap (x : list Z) (c : nat) :
  Forall (fun i => 0 ≤ i < Z.of_nat c)%Z x →
  sie ((fun i => i - Z.of_nat c)%Z <$> x) c = sie x c.
Proof.
  intros Hx. rewrite !sie_valid.
  - f_equal. rewrite <- list_fmap_compose. apply list_fmap_ext.
    intros k i Hk. simpl. unfold one_hot. do 2 f_equal.
    rewrite Forall_lookup in Hx. specialize (Hx k i Hk).
    replace (i - Z.of_nat c)%Z with (i + (-1) * Z.of_nat c)%Z by lia.
    by rewrite Z.mod_add by lia.
  - eapply Forall_impl; [exact Hx|]. unfold valid_index. intros; simpl in *; lia.
  - apply Forall_fmap. eapply Forall_impl; [exact Hx|].
    unfold valid_index. intros; simpl in *; lia.
Qed.

Lemma sie_negative_wrap_witness : sie [-1; -3]%Z 3 = sie [2; 0]%Z 3.
Proof.
  apply (sie_negative_wrap [2; 0]%Z 3). repeat constructor; lia.
Defined.

Lemma one_hot_inj c i i' :
  (0 ≤ i < Z.of_nat c)%Z → (0 ≤ i' < Z.of_nat c)%Z →
  one_hot c i = one_hot c i' → i = i'.
Proof.
  intros Hi Hi' E.
  assert (Hl : one_hot c i !! Z.to_nat i = one_hot c i' !! Z.to_nat i) by (by rewrite E).
  rewrite !lookup_one_hot in Hl by (unfold valid_index; lia).
  rewrite !Z.mod_small in Hl by lia. rewrite Z2Nat.id in Hl by lia.
  destruct (decide (i = i)) as [_|]; [|done].
  destruct (decide (i = i')) as [|_]; [done|].
  injection Hl as Hl. lra.
Qed.

(** X4. The embedding loses nothing: two label vectors over [[0, c)] with
    the same embedding are equal. *)
Theorem sie_injective (x x' : list Z) (c : nat) :
  Forall (fun i => 0 ≤ i < Z.of_nat c)%Z x →
  Forall (fun i => 0 ≤ i < Z.of_nat c)%Z x' →
  sie x c = sie x' c → x = x'.
Proof.
  intros Hx Hx'. rewrite !sie_valid
    by (eapply Forall_impl; [eassumption|]; unfold valid_index; intros; simpl in *; lia).
  intros [= E]. revert x' Hx' E.
  induction Hx as [|i x Hi Hx IH]; intros [|i' x'] Hx' E; try done.
  apply Forall_cons in Hx' as [Hi' Hx']. injection E as E1 E2.
  f_equal; [by apply (one_hot_inj c)|by apply IH].
Qed.

Lemma sie_injective_witness : [1; 0]%Z = [1; 0]%Z.
Proof.
  apply (sie_injective [1; 0]%Z [1; 0]%Z 2); [| |reflexivity];
    repeat constructor; lia.
Defined.

(** X5. Embedding a concatenation is concatenating the embeddings, and it
    raises as soon as either part does. *)
Theorem sie_app (x x' : list Z) (c : nat) :
  sie (x ++ x') c = (y ← sie x c; y' ← sie x' c; Ok (y ++ y')).
Proof.
  rewrite !sie_cases.
  destruct (decide (Forall (valid_index c) x)) as [Hx|Hx];
    destruct (decide (Forall (valid_index c) x')) as [Hx'|Hx'];
    destruct (decide (Forall (valid_index c) (x ++ x'))) as [Hxx|Hxx];
    try (rewrite Forall_app in Hxx; tauto); try done.
  by rewrite !bind_Ok, fmap_app.
Qed.

End SieProperties.

(** ** More on the Gaussian generators *)

Section GaussianExtras.
Local Open Scope R_scope.

(** X6. Either generator raises [ValueError] exactly on a degenerate grid
    ([n_pix = 0] or a zero side length); otherwise both return the same
    coordinate grid and three [n_pix]-by-[n_pix] arrays. *)
Theorem generators_outcome (x y sigma : R) (n_pix : nat) (size : option R) :
  (degenerate n_pix size →
     make_gaussian x y sigma n_pix size = Raise ValueError
     ∧ make_gaussian_mass x y sigma n_pix size = Raise ValueError)
  ∧ (¬ degenerate n_pix size →
     ∃ X Y Z Zm,
       make_gaussian x y sigma n_pix size = Ok (X, Y, Z)
       ∧ make_gaussian_mass x y sigma n_pix size = Ok (X, Y, Zm)
       ∧ has_shape n_pix n_pix X = true ∧ has_shape n_pix n_pix Y = true
       ∧ has_shape n_pix n_pix Z = true ∧ has_shape n_pix n_pix Zm = true).
Proof.
  split.
  - intros Hd. by rewrite make_gaussian_raises, make_gaussian_mass_raises.
  - intros Hd. destruct (degenerate_dec n_pix size) as [?|[Hn Hdeg]]; [done|].
    exists (grid_X n_pix size), (grid_Y n_pix size),
      (gaussian_field x y sigma n_pix size), (mass_field x y sigma n_pix size).
    split; [by apply make_gaussian_field|].
    split; [by apply make_gaussian_mass_field|].
    split; [apply has_shape_grid_X|]. split; [apply has_shape_grid_Y|].
    split; [apply has_shape_gaussian_field | apply has_shape_mass_field].
Qed.

(** X7. Without a [size] the pixel spacing is 1 and the grid holds the
    centred pixel indices: [X[r][c] = c - (n_pix - 1)/2] and
    [Y[r][c] = (n_pix - 1)/2 - r]. *)
Theorem default_grid_coordinates (x y sigma : R) (n_pix : nat) :
  (0 < n_pix)%nat →
  dpix_of n_pix None = 1
  ∧ ∃ X Y Z, make_gaussian x y sigma n_pix None = Ok (X, Y, Z)
      ∧ ∀ r c, (r < n_pix)%nat → (c < n_pix)%nat →
          cell X r c = Some (INR c - (INR n_pix - 1) / 2)
          ∧ cell Y r c = Some ((INR n_pix - 1) / 2 - INR r).
Proof.
  intros Hn. assert (HN : 0 < INR n_pix) by (apply lt_0_INR; lia).
  assert (Hdpix : dpix_of n_pix None = 1).
  { unfold dpix_of, deg_of, dtype. field. lra. }
  split; [done|].
  eexists _, _, _. split; [apply make_gaussian_field; [done|by apply deg_default_neq_0]|].
  intros r c Hr Hc. rewrite cell_grid_X, cell_grid_Y by done.
  rewrite !lookup_axis by done. rewrite Hdpix. unfold deg_of, dtype. simpl.
  split; f_equal; lra.
Qed.

Lemma default_grid_coordinates_witness :
  ∃ X Y Z, make_gaussian 0 0 1 4 None = Ok (X, Y, Z)
    ∧ cell X 0 3 = Some (INR 3 - (INR 4 - 1) / 2).
Proof.
  destruct (default_grid_coordinates 0 0 1 4) as (_ & X & Y & Z & Hret & Hcells); [lia|].
  exists X, Y, Z. split; [exact Hret|]. apply Hcells; lia.
Defined.




(** The error function does not decrease. *)
Lemma erf_monotone a b : a <= b → erf a <= erf b.
Proof.
  intros Hab. unfold erf.
  rewrite <- (RiemannInt_P26 (gauss_kernel_integrable 0 a)
                (gauss_kernel_integrable a b) (gauss_kernel_integrable 0 b)).
  assert (Hnn : 0 <= RiemannInt (gauss_kernel_integrable a b)).
  { rewrite <- (Rmult_0_l (b - a)).
    rewrite <- (RiemannInt_P15 (RiemannInt_P14 a b 0)).
    apply RiemannInt_P19; [done|]. intros t _. unfold fct_cte, gauss_kernel.
    apply Rlt_le, exp_pos. }
  assert (Hc : 0 < 2 / sqrt PI).
  { apply Rdiv_lt_0_compat; [lra|]. apply sqrt_lt_R0, PI_RGT_0. }
  nra.
Qed.

Lemma gaussian_mass_nonneg xi yi dx dy x y sigma :
  0 < sigma → 0 <= dx → 0 <= dy → 0 <= gaussian_mass xi yi dx dy x y sigma.
Proof.
  intros Hs Hdx Hdy. unfold gaussian_mass.
  assert (Hq : 0 < / (sqrt 2 * sigma)).
  { apply Rinv_0_lt_compat, Rmult_lt_0_compat; [apply sqrt_lt_R0; lra|done]. }
  assert (Hx : erf ((xi - x - dx / 2) / (sqrt 2 * sigma))
               <= erf ((xi - x + dx / 2) / (sqrt 2 * sigma))).
  { apply erf_monotone. unfold Rdiv. apply Rmult_le_compat_r; lra. }
  assert (Hy : erf ((yi - y - dy / 2) / (sqrt 2 * sigma))
               <= erf ((yi - y + dy / 2) / (sqrt 2 * sigma))).
  { apply erf_monotone. unfold Rdiv. apply Rmult_le_compat_r; lra. }
  apply Rmult_le_pos; [apply Rmult_le_pos|]; lra.
Qed.

(** X9. The mass generator never returns a negative mass: for [sigma > 0]
    and a positive side length every entry of its field is [>= 0], on
    either side of the threshold. *)
Theorem make_gaussian_mass_nonneg (x y sigma : R) (n_pix : nat) (size : option R) :
  0 < sigma → (0 < n_pix)%nat → 0 < deg_of n_pix size →
  ∃ X Y Z, make_gaussian_mass x y sigma n_pix size = Ok (X, Y, Z)
    ∧ all_cells (fun v => 0 <= v) Z.
Proof.
  intros Hs Hn Hdeg.
  eexists _, _, _. split; [apply make_gaussian_mass_field; [done|lra]|].
  assert (Hdp : 0 < dpix_of n_pix size).
  { unfold dpix_of, dtype. apply Rdiv_lt_0_compat; [done|]. apply lt_0_INR. lia. }
  unfold mass_field. destruct (Rlt_dec _ _).
  - apply all_cells_mat_zip. intros a b. apply gaussian_mass_nonneg; lra.
  - apply all_cells_mat_zip. intros a b. apply Rlt_le.
    apply point_sample_pos; lra.
Qed.

Lemma make_gaussian_mass_nonneg_witness :
  ∃ X Y Z, make_gaussian_mass 0 0 (1 / 4) 2 (Some 2) = Ok (X, Y, Z)
    ∧ all_cells (fun v => 0 <= v) Z.
Proof.
  apply (make_gaussian_mass_nonneg 0 0 (1 / 4) 2 (Some 2)); [lra|lia|simpl; lra].
Defined.

End GaussianExtras.

Section ScaleInvariance.
Local Open Scope R_scope.

Variables (k : R) (n_pix : nat) (s : R).
Hypothesis Hk : 0 < k.
Hypothesis Hn : (0 < n_pix)%nat.













End ScaleInvariance.

Section ScaleClaims.
Local Open Scope R_scope.



End ScaleClaims.

(** ** More on the stacking wrappers *)

Section StackExtras.

(** X11. The uninitialised buffer never shows: whatever the fresh memory
    holds, each wrapper returns the same result. *)
Theorem stack_ignores_fresh_memory (junk junk' : R) (xs ys sigmas : list R)
    (n_pix : nat) (size : option R) :
  make_gaussian_stack junk xs ys sigmas n_pix size
    = make_gaussian_stack junk' xs ys sigmas n_pix size
  ∧ make_gaussian_mass_stack junk xs ys sigmas n_pix size
    = make_gaussian_mass_stack junk' xs ys sigmas n_pix size.
Proof.
  by rewrite !make_gaussian_stack_cases, !make_gaussian_mass_stack_cases.
Qed.

Lemma layers_take F (xs ys sigmas : list R) k :
  length xs `min` (length ys `min` length sigmas) ≤ k →
  layers F (take k xs) (take k ys) (take k sigmas) = layers F xs ys sigmas.
Proof.
  intros Hk. unfold layers.
  rewrite <- (zip_with_take pair k ys sigmas).
  apply zip_with_take_both'; rewrite length_zip_with; lia.
Qed.

Lemma min_take (xs ys sigmas : list R) k :
  k = length xs `min` (length ys `min` length sigmas) →
  length (take k xs) `min` (length (take k ys) `min` length (take k sigmas)) = k.
Proof. intros ->. rewrite !length_take. lia. Qed.

(** X12. Only the first [min(len)] entries of each input are read: cutting
    all three inputs to the shortest length changes nothing. *)
Theorem stack_reads_common_prefix (junk : R) (xs ys sigmas : list R)
    (n_pix : nat) (size : option R) :
  let k := length xs `min` (length ys `min` length sigmas) in
  make_gaussian_stack junk (take k xs) (take k ys) (take k sigmas) n_pix size
    = make_gaussian_stack junk xs ys sigmas n_pix size
  ∧ make_gaussian_mass_stack junk (take k xs) (take k ys) (take k sigmas) n_pix size
    = make_gaussian_mass_stack junk xs ys sigmas n_pix size.
Proof.
  intros k. rewrite !make_gaussian_stack_cases, !make_gaussian_mass_stack_cases.
  rewrite (min_take xs ys sigmas k eq_refl).
  rewrite !(layers_take _ xs ys sigmas k) by (unfold k; lia). done.
Qed.

Lemma layers_app F (xs ys sigmas xs' ys' sigmas' : list R) :
  length xs = length ys → length ys = length sigmas →
  layers F (xs ++ xs') (ys ++ ys') (sigmas ++ sigmas')
  = layers F xs ys sigmas ++ layers F xs' ys' sigmas'.
Proof.
  intros H1 H2. unfold layers.
  rewrite (zip_with_app pair ys ys' sigmas sigmas') by done.
  apply zip_with_app. rewrite length_zip_with. lia.
Qed.

(** X13. Stacking composes: for two non-empty runs of aligned triples, the
    stack of the concatenated inputs is the first stack followed by the
    layers of the second, on the same grid. *)
Theorem stack_app (junk : R) (xs ys sigmas xs' ys' sigmas' : list R)
    (n_pix : nat) (size : option R) :
  length xs = length ys → length ys = length sigmas → 0 < length xs →
  0 < length xs' `min` (length ys' `min` length sigmas') →
  make_gaussian_stack junk (xs ++ xs') (ys ++ ys') (sigmas ++ sigmas') n_pix size
    = append_stacks (make_gaussian_stack junk xs ys sigmas n_pix size)
        (make_gaussian_stack junk xs' ys' sigmas' n_pix size)
  ∧ make_gaussian_mass_stack junk (xs ++ xs') (ys ++ ys') (sigmas ++ sigmas') n_pix size
    = append_stacks (make_gaussian_mass_stack junk xs ys sigmas n_pix size)
        (make_gaussian_mass_stack junk xs' ys' sigmas' n_pix size).
Proof.
  intros H1 H2 H3 H4.
  rewrite !make_gaussian_stack_cases, !make_gaussian_mass_stack_cases.
  rewrite !length_app.
  destruct (Nat.eqb_spec ((length xs + length xs')
              `min` ((length ys + length ys') `min` (length sigmas + length sigmas'))) 0)
    as [E|_]; [lia|].
  destruct (Nat.eqb_spec (length xs `min` (length ys `min` length sigmas)) 0)
    as [E|_]; [lia|].
  destruct (Nat.eqb_spec (length xs' `min` (length ys' `min` length sigmas')) 0)
    as [E|_]; [lia|].
  destruct (degenerate_dec n_pix size); [done|].
  unfold append_stacks. rewrite !bind_Ok. cbv beta iota.
  by rewrite !layers_app.
Qed.

Lemma stack_app_witness :
  make_gaussian_stack 0 ([0; 1] ++ [2])%R ([0; 0] ++ [1])%R ([1; 2] ++ [3])%R 4 None
  = append_stacks (make_gaussian_stack 0 [0; 1]%R [0; 0]%R [1; 2]%R 4 None)
      (make_gaussian_stack 0 [2%R] [1%R] [3%R] 4 None).
Proof.
  apply (stack_app 0 [0; 1]%R [0; 0]%R [1; 2]%R [2%R] [1%R] [3%R] 4 None);
    simpl; lia.
Defined.

End StackExtras.

(** ** More on tile placement *)

Section TileExtras.

Lemma randint_eq st low high size :
  (low < high)%Z →
  randint st low high size
  = Ok ((fun j => (low + Z.of_nat (st j) mod (high - low))%Z) <$> seq 0 size,
        fun j => st (size + j)).
Proof.
  intros Hlt. unfold randint. by destruct (Z.leb_spec high low) as [Hle|_]; [lia|].
Qed.

(** The run of [place_tile_in] with the offsets it draws: the row offsets
    come from the first [b] draws, the column offsets from the next [b]. *)
Lemma place_tile_in_run (st : rng) (tile : ndarray4) (new_npx b f dx : nat) :
  shape4 tile = (b, f, dx, dx) → wf4 tile → dx < new_npx →
  ∃ A, place_tile_in st tile new_npx = Ok (A, fun j => st (b + (b + j)))
    ∧ shape4 A = (b, f, new_npx, new_npx)
    ∧ wf4 A
    ∧ ∀ i, i < b →
        tile_at A tile f new_npx dx i
          (drawn_offset st (new_npx - dx) i)
          (drawn_offset st (new_npx - dx) (b + i)).
Proof.
  intros Hshape Hwf Hlt. unfold wf4 in Hwf. rewrite Hshape in Hwf.
  destruct Hwf as [Hlen Htiles].
  unfold place_tile_in. rewrite Hshape.
  rewrite !randint_eq by lia. rewrite bind_Ok. cbv beta iota.
  rewrite !randint_eq by lia. rewrite bind_Ok. cbv beta iota.
  set (pos_x := (fun j => (0 + Z.of_nat (st j)
                    mod (Z.of_nat new_npx - Z.of_nat dx - 0))%Z) <$> seq 0 b).
  set (pos_y := (fun j => (0 + Z.of_nat (st (b + j)%nat)
                    mod (Z.of_nat new_npx - Z.of_nat dx - 0))%Z) <$> seq 0 b).
  assert (Hbound : ∀ z : Z, (0 ≤ 0 + z mod (Z.of_nat new_npx - Z.of_nat dx - 0)
                             < Z.of_nat new_npx - Z.of_nat dx)%Z).
  { intros z.
    pose proof (Z.mod_pos_bound z (Z.of_nat new_npx - Z.of_nat dx - 0) ltac:(lia)).
    lia. }
  destruct (place_loop b f new_npx dx pos_x pos_y (data4 tile))
    with (m := b) (a := 0) (A := data4 (np_zeros4 b f new_npx new_npx))
    as (A' & Hrun & HlA' & HA' & Hin & _).
  { unfold pos_x. by rewrite length_fmap, length_seq. }
  { unfold pos_y. by rewrite length_fmap, length_seq. }
  { done. }
  { intros j v Hj. unfold pos_x in Hj. rewrite list_lookup_fmap in Hj.
    destruct (seq 0 b !! j); simpl in Hj; [|done]. injection Hj as <-.
    pose proof (Hbound (Z.of_nat (st n))). lia. }
  { intros j v Hj. unfold pos_y in Hj. rewrite list_lookup_fmap in Hj.
    destruct (seq 0 b !! j); simpl in Hj; [|done]. injection Hj as <-.
    pose proof (Hbound (Z.of_nat (st (b + n)))). lia. }
  { exact Htiles. }
  { lia. }
  { apply (wf4_np_zeros4 b f new_npx). }
  { apply (wf4_np_zeros4 b f new_npx). }
  rewrite Hrun, bind_Ok.
  eexists. split; [reflexivity|]. split; [reflexivity|]. split.
  { unfold wf4. simpl. by split. }
  intros i Hi k r c Hk Hr Hc.
  destruct (Hin i) as (px & py & tb & Ab & Ab' & Hpx & Hpy & Htb & HAb & HAb' & _ & Hcells);
    [lia|].
  unfold pos_x in Hpx. unfold pos_y in Hpy.
  rewrite list_lookup_fmap, lookup_seq_lt in Hpx by done.
  rewrite list_lookup_fmap, lookup_seq_lt in Hpy by done.
  simpl in Hpx, Hpy. injection Hpx as <-. injection Hpy as <-.
  unfold cell4. simpl. rewrite HAb', Htb. simpl. rewrite Hcells.
  unfold drawn_offset.
  replace (Z.of_nat (new_npx - dx)) with (Z.of_nat new_npx - Z.of_nat dx - 0)%Z by lia.
  destruct (in_block _ _ _ _ _ _); [done|].
  simpl in HAb. rewrite lookup_replicate_2 in HAb by done. injection HAb as <-.
  by apply cell3_zeros.
Qed.

(** X14. With a canvas one pixel larger than the tile no offset is left
    to chance: every tile lands in the top-left corner, with a row and a
    column of zeros after it. *)
Theorem place_tile_in_tight (st : rng) (tile : ndarray4) (b f dx : nat) :
  shape4 tile = (b, f, dx, dx) → wf4 tile →
  ∃ A st', place_tile_in st tile (S dx) = Ok (A, st')
    ∧ ∀ i k r c, i < b → k < f → r < S dx → c < S dx →
        cell4 A i k r c
        = if (r <? dx) && (c <? dx) then cell4 tile i k r c else Some 0%R.
Proof.
  intros Hshape Hwf.
  destruct (place_tile_in_run st tile (S dx) b f dx Hshape Hwf) as (A & Hret & _ & _ & Hat);
    [lia|].
  eexists _, _. split; [exact Hret|].
  intros i k r c Hi Hk Hr Hc. rewrite (Hat i Hi k r c Hk Hr Hc).
  unfold drawn_offset. replace (S dx - dx) with 1 by lia.
  rewrite !Z.mod_1_r. simpl. unfold in_block. simpl.
  change (Z.to_nat 0) with 0. rewrite !Nat.sub_0_r.
  by rewrite andb_true_r.
Qed.

Lemma place_tile_in_tight_witness :
  ∃ A st', place_tile_in (fun _ => 9) {| shape4 := (1, 1, 1, 1); data4 := [[[[7%R]]]] |} 2
           = Ok (A, st')
    ∧ cell4 A 0 0 0 0 = Some 7%R ∧ cell4 A 0 0 1 1 = Some 0%R.
Proof.
  destruct (place_tile_in_tight (fun _ => 9)
              {| shape4 := (1, 1, 1, 1); data4 := [[[[7%R]]]] |} 1 1 1)
    as (A & st' & Hret & Hcells).
  - reflexivity.
  - unfold wf4, wf_planes. simpl. repeat constructor.
  - exists A, st'. split; [exact Hret|].
    split; [apply (Hcells 0 0 0 0); lia | apply (Hcells 0 0 1 1); lia].
Defined.

(** X15. Every admissible placement can occur: for any choice of row and
    column offsets below [new_npx - dx], one per batch element, some state
    of the random source makes [place_tile_in] put each tile exactly
    there. *)
Theorem place_tile_in_reaches (tile : ndarray4) (new_npx b f dx : nat)
    (pxs pys : list nat) :
  shape4 tile = (b, f, dx, dx) → wf4 tile → dx < new_npx →
  length pxs = b → length pys = b →
  Forall (fun p => p < new_npx - dx) pxs →
  Forall (fun p => p < new_npx - dx) pys →
  ∃ st A st', place_tile_in st tile new_npx = Ok (A, st')
    ∧ ∀ i px py, pxs !! i = Some px → pys !! i = Some py →
        tile_at A tile f new_npx dx i px py.
Proof.
  intros Hshape Hwf Hlt Hlx Hly Hpx Hpy.
  set (st := fun j : nat => if decide (j < b) then pxs !!! j else pys !!! (j - b)).
  destruct (place_tile_in_run st tile new_npx b f dx Hshape Hwf Hlt)
    as (A & Hret & _ & _ & Hat).
  exists st. eexists _, _. split; [exact Hret|].
  intros i px py Hi Hj.
  assert (Hib : i < b) by (rewrite <- Hlx; by eapply lookup_lt_Some).
  specialize (Hat i Hib).
  assert (Ex : drawn_offset st (new_npx - dx) i = px).
  { unfold drawn_offset, st. destruct (decide (i < b)); [|lia].
    rewrite (list_lookup_total_correct _ _ _ Hi).
    rewrite Forall_lookup in Hpx. specialize (Hpx i px Hi).
    rewrite Z.mod_small by lia. lia. }
  assert (Ey : drawn_offset st (new_npx - dx) (b + i) = py).
  { unfold drawn_offset, st. destruct (decide (b + i < b)); [lia|].
    replace (b + i - b) with i by lia.
    rewrite (list_lookup_total_correct _ _ _ Hj).
    rewrite Forall_lookup in Hpy. specialize (Hpy i py Hj).
    rewrite Z.mod_small by lia. lia. }
  by rewrite Ex, Ey in Hat.
Qed.

Lemma place_tile_in_reaches_witness :
  ∃ st A st', place_tile_in st {| shape4 := (1, 1, 1, 1); data4 := [[[[7%R]]]] |} 4
              = Ok (A, st')
    ∧ tile_at A {| shape4 := (1, 1, 1, 1); data4 := [[[[7%R]]]] |} 1 4 1 0 2 1.
Proof.
  destruct (place_tile_in_reaches {| shape4 := (1, 1, 1, 1); data4 := [[[[7%R]]]] |}
              4 1 1 1 [2] [1]) as (st & A & st' & Hret & Hat).
  - reflexivity.
  - unfold wf4, wf_planes. simpl. repeat constructor.
  - lia.
  - reflexivity.
  - reflexivity.
  - repeat constructor.
  - repeat constructor.
  - exists st, A, st'. split; [exact Hret|]. by apply Hat.
Defined.

End TileExtras.

(** ** More on mosaics *)

Section MosaicExtras.

Lemma mosaic_vis_save_path X pad sp :
  mosaic_vis X pad sp
  = (img ← mosaic_vis X pad None;
     match sp with Some _ => Raise NameError | None => Ok img end).
Proof.
  unfold mosaic_vis.
  destruct (np_amin (values X)) as [lo|e]; [|done]. rewrite !bind_Ok.
  destruct (np_amax (values X)) as [hi|e]; [|done]. rewrite !bind_Ok.
  cbv zeta.
  destruct (Z.to_nat (Zceil (sqrt (dtype (INR (batch_len X))))) =? 0); [done|].
  rewrite !bind_Ok.
  destruct (grow_rows _ _ _ _) as [y|e]; [|done]. rewrite !bind_Ok.
  destruct X as [n h w d|n h w c d].
  - destruct (place_tiles _ _ _ _ _ _ _) as [img|e]; [|done].
    rewrite !bind_Ok. by destruct sp.
  - destruct (place_tiles _ _ _ _ _ _ _) as [img|e]; [|done].
    rewrite !bind_Ok. by destruct sp.
Qed.

Lemma mosaic_vis_returns X pad :
  wf_batch X → values X ≠ [] → ∃ img, mosaic_vis X pad None = Ok img.
Proof.
  intros Hwf Hne.
  destruct (extremes_spec (values X) Hne) as (lo & hi & Hlo & Hhi & _).
  destruct (mosaic_vis_run X pad lo hi Hwf Hlo Hhi) as (x & y & _ & _ & _ & _ & Hrun).
  destruct X; destruct Hrun as (img & Hret & _); eauto.
Qed.

(** X16. Asking for the mosaic to be saved always fails: [imsave] is not
    defined in the module, so on any batch that has pixels the call raises
    [NameError] once the image is built. *)
Theorem mosaic_vis_save_raises (X : batch) (pad : nat) (path : string) :
  wf_batch X → values X ≠ [] →
  mosaic_vis X pad (Some path) = Raise NameError.
Proof.
  intros Hwf Hne. rewrite mosaic_vis_save_path.
  destruct (mosaic_vis_returns X pad Hwf Hne) as [img ->]. done.
Qed.

Lemma mosaic_vis_save_raises_witness :
  mosaic_vis (Batch3 1 1 1 [[[5%R]]]) 0 (Some "out.png"%string) = Raise NameError.
Proof.
  apply mosaic_vis_save_raises.
  - split; [reflexivity|]. repeat constructor.
  - discriminate.
Defined.

Lemma concat_all_nil {A : Type} (l : list (list A)) :
  Forall (fun x => x = []) l → concat l = [].
Proof. intros H. by apply concat_nil_Forall. Qed.

Lemma has_shape_no_rows {A : Type} w (t : list (list A)) :
  has_shape 0 w t = true → t = [].
Proof. intros [Hl _]%has_shape_spec. by destruct t. Qed.

Lemma no_pixels_values X : wf_batch X → no_pixels X → values X = [].
Proof.
  destruct X as [n h w d|n h w c d]; simpl.
  - intros [Hlen Hd] Hno. apply concat_all_nil, Forall_concat.
    destruct Hno as [Hn | [Hh | Hw]]; subst.
    + by destruct d.
    + eapply Forall_impl; [exact Hd|]. intros t Ht.
      by rewrite (has_shape_no_rows _ _ Ht).
    + eapply Forall_impl; [exact Hd|]. intros t [_ Ht]%has_shape_spec.
      eapply Forall_impl; [exact Ht|]. intros row Hrow. by destruct row.
  - intros (Hlen & Hd & Hc) Hno. apply concat_all_nil. rewrite 2!Forall_concat.
    destruct Hno as [Hn | [Hh | [Hw | Hch]]]; subst.
    + by destruct d.
    + eapply Forall_impl; [exact Hd|]. intros t Ht.
      by rewrite (has_shape_no_rows _ _ Ht).
    + eapply Forall_impl; [exact Hd|]. intros t [_ Ht]%has_shape_spec.
      eapply Forall_impl; [exact Ht|]. intros row Hrow. by destruct row.
    + eapply Forall_impl; [exact Hc|]. intros t Ht.
      eapply Forall_impl; [exact Ht|]. intros row Hrow.
      eapply Forall_impl; [exact Hrow|]. intros px Hpx. by destruct px.
Qed.

(** X17. A batch without pixels (no images, or images of height or width
    zero, or without channels) makes [mosaic_vis] raise [ValueError]: the
    minimum of an empty array does not exist. *)
Theorem mosaic_vis_empty_raises (X : batch) (pad : nat) (sp : option string) :
  wf_batch X → no_pixels X → mosaic_vis X pad sp = Raise ValueError.
Proof.
  intros Hwf Hno. unfold mosaic_vis. by rewrite (no_pixels_values X Hwf Hno).
Qed.

Lemma mosaic_vis_empty_raises_witness :
  mosaic_vis (Batch3 2 0 3 [[]; []]) 1 None = Raise ValueError.
Proof.
  apply mosaic_vis_empty_raises.
  - split; [reflexivity|]. repeat constructor.
  - right. by left.
Defined.



End MosaicExtras.

Section MosaicInvariance.
Local Open Scope R_scope.

Lemma fmap_concat {A B : Type} (f : A → B) (l : list (list A)) :
  f <$> concat l = concat (fmap (M := list) f <$> l).
Proof.
  induction l as [|x l IH]; [done|]. cbn [concat]. rewrite fmap_app, IH. done.
Qed.

Lemma values_batch_map f X : values (batch_map f X) = f <$> values X.
Proof.
  destruct X as [n h w d|n h w c d]; simpl.
  - by rewrite !fmap_concat.
  - by rewrite !fmap_concat.
Qed.

Variables (a b : R).
Hypothesis Ha : 0 < a.

Lemma Rmin_affine u v : Rmin (a * u + b) (a * v + b) = a * Rmin u v + b.
Proof.
  unfold Rmin. destruct (Rle_dec u v), (Rle_dec (a * u + b) (a * v + b));
    try done; exfalso; nra.
Qed.

Lemma Rmax_affine u v : Rmax (a * u + b) (a * v + b) = a * Rmax u v + b.
Proof.
  unfold Rmax. destruct (Rle_dec u v), (Rle_dec (a * u + b) (a * v + b));
    try done; exfalso; nra.
Qed.

Lemma foldl_Rmin_affine l : ∀ v,
  foldl Rmin (a * v + b) ((fun u => a * u + b) <$> l) = a * foldl Rmin v l + b.
Proof.
  induction l as [|u l IH]; intros v; [done|]. csimpl.
  by rewrite Rmin_affine, IH.
Qed.

Lemma foldl_Rmax_affine l : ∀ v,
  foldl Rmax (a * v + b) ((fun u => a * u + b) <$> l) = a * foldl Rmax v l + b.
Proof.
  induction l as [|u l IH]; intros v; [done|]. csimpl.
  by rewrite Rmax_affine, IH.
Qed.

Lemma np_amin_affine l :
  np_amin ((fun u => a * u + b) <$> l) = (lo ← np_amin l; Ok (a * lo + b)).
Proof. destruct l as [|v l]; [done|]. csimpl. by rewrite foldl_Rmin_affine. Qed.

Lemma np_amax_affine l :
  np_amax ((fun u => a * u + b) <$> l) = (hi ← np_amax l; Ok (a * hi + b)).
Proof. destruct l as [|v l]; [done|]. csimpl. by rewrite foldl_Rmax_affine. Qed.

Lemma normalise_affine lo hi v :
  normalise (a * lo + b) (a * hi + b) (a * v + b) = normalise lo hi v.
Proof.
  unfold normalise, fdiv.
  destruct (Req_dec_T (a * hi + b - (a * lo + b)) 0) as [E|E];
    destruct (Req_dec_T (hi - lo) 0) as [E'|E']; try done.
  - exfalso. nra.
  - exfalso. apply E. nra.
  - f_equal. field. split; lra.
Qed.

(** X19. Brightness and contrast do not matter: replacing every pixel
    value [v] by [a*v + b] with [a > 0] leaves the result of [mosaic_vis]
    unchanged, on every input. *)
Theorem mosaic_vis_affine_invariant (X : batch) (pad : nat) (sp : option string) :
  mosaic_vis (batch_map (fun v => a * v + b) X) pad sp = mosaic_vis X pad sp.
Proof.
  unfold mosaic_vis. rewrite values_batch_map, np_amin_affine, np_amax_affine.
  destruct (np_amin (values X)) as [lo|e]; [|done]. rewrite !bind_Ok.
  destruct (np_amax (values X)) as [hi|e]; [|done]. rewrite !bind_Ok.
  destruct X as [n h w d|n h w c d]; cbn [batch_map batch_len].
  - replace (fmap (M := list) (fmap (M := list) (fmap (M := list)
               (normalise (a * lo + b) (a * hi + b))))
               (fmap (M := list) (fmap (M := list) (fmap (M := list)
                  (fun v => a * v + b))) d))
      with (fmap (M := list) (fmap (M := list) (fmap (M := list)
              (normalise lo hi))) d); [done|].
    rewrite <- list_fmap_compose. apply list_fmap_ext. intros _ t _. simpl.
    rewrite <- list_fmap_compose. apply list_fmap_ext. intros _ row _. simpl.
    rewrite <- list_fmap_compose. apply list_fmap_ext. intros _ v _. simpl.
    by rewrite normalise_affine.
  - replace (fmap (M := list) (fmap (M := list) (fmap (M := list) (fmap (M := list)
               (normalise (a * lo + b) (a * hi + b)))))
               (fmap (M := list) (fmap (M := list) (fmap (M := list) (fmap (M := list)
                  (fun v => a * v + b)))) d))
      with (fmap (M := list) (fmap (M := list) (fmap (M := list) (fmap (M := list)
              (normalise lo hi)))) d); [done|].
    rewrite <- list_fmap_compose. apply list_fmap_ext. intros _ t _. simpl.
    rewrite <- list_fmap_compose. apply list_fmap_ext. intros _ row _. simpl.
    rewrite <- list_fmap_compose. apply list_fmap_ext. intros _ px _. simpl.
    rewrite <- list_fmap_compose. apply list_fmap_ext. intros _ v _. simpl.
    by rewrite normalise_affine.
Qed.

End MosaicInvariance.

Lemma mosaic_vis_affine_invariant_witness :
  mosaic_vis (batch_map (fun v => 2 * v + 3)%R (Batch3 1 1 2 [[[0; 1]%R]])) 0 None
  = mosaic_vis (Batch3 1 1 2 [[[0; 1]%R]]) 0 None.
Proof.
  apply (mosaic_vis_affine_invariant 2 3). lra.
Defined.

Section MosaicContent.

Lemma matrix_ext {A : Type} m n (M N : list (list A)) :
  has_shape m n M = true → has_shape m n N = true →
  (∀ r c, r < m → c < n → cell M r c = cell N r c) → M = N.
Proof.
  intros HM HN Hcells.
  pose proof HM as [HlM _]%has_shape_spec. pose proof HN as [HlN _]%has_shape_spec.
  apply list_eq. intros r.
  destruct (decide (r < m)) as [Hr|Hr].
  - destruct (lookup_lt_is_Some_2 M r) as [rowM HrM]; [lia|].
    destruct (lookup_lt_is_Some_2 N r) as [rowN HrN]; [lia|].
    rewrite HrM, HrN. f_equal. apply list_eq. intros c.
    pose proof (has_shape_lookup _ _ _ _ _ HM HrM) as HcM.
    pose proof (has_shape_lookup _ _ _ _ _ HN HrN) as HcN.
    destruct (decide (c < n)) as [Hc|Hc].
    + specialize (Hcells r c Hr Hc). unfold cell in Hcells.
      by rewrite HrM, HrN in Hcells.
    + rewrite !lookup_ge_None_2; [done|lia|lia].
  - rewrite !lookup_ge_None_2; [done|lia|lia].
Qed.

(** X20. A batch of one single-channel image comes back as that image,
    normalised: one column, one row, and no padding whatever [pad] is. *)
Theorem mosaic_vis_single (h w pad : nat) (t : list (list R)) :
  has_shape h w t = true → concat t ≠ [] →
  ∃ lo hi, np_amin (concat t) = Ok lo ∧ np_amax (concat t) = Ok hi
    ∧ mosaic_vis (Batch3 1 h w [t]) pad None
      = Ok (Image2 (fmap (M := list) (fmap (M := list) (normalise lo hi)) t)).
Proof.
  intros Ht Hne.
  assert (Hv : values (Batch3 1 h w [t]) = concat t) by (simpl; by rewrite app_nil_r).
  assert (Hwf : wf_batch (Batch3 1 h w [t])) by (split; [done|by constructor]).
  destruct (extremes_spec (concat t) Hne) as (lo & hi & Hlo & Hhi & _).
  exists lo, hi. split; [done|]. split; [done|].
  rewrite <- Hv in Hlo, Hhi.
  destruct (mosaic_vis_run _ pad lo hi Hwf Hlo Hhi)
    as (x & y & Hx1 & Hx2 & Hy1 & Hy2 & img & Hret & (Hshape & Hcells & _) & _).
  cbn [batch_len] in *.
  assert (x = 1) as -> by nia.
  assert (y = 1) as -> by (apply Nat.le_antisymm; [apply Hy2; lia|lia]).
  rewrite Hret. do 2 f_equal.
  apply (matrix_ext h w).
  - replace h with (h * 1 + (1 - 1) * pad) at 1 by lia.
    by replace w with (w * 1 + (1 - 1) * pad) at 1 by lia.
  - by apply has_shape_fmap2.
  - intros r c Hr Hc.
    specialize (Hcells 0 _ r c eq_refl Hr Hc).
    by rewrite Nat.Div0.div_0_l, Nat.Div0.mod_0_l in Hcells.
Qed.

Lemma mosaic_vis_single_witness :
  ∃ lo hi, mosaic_vis (Batch3 1 1 2 [[[3; 5]%R]]) 7 None
           = Ok (Image2 [[normalise lo hi 3; normalise lo hi 5]]).
Proof.
  destruct (mosaic_vis_single 1 2 7 [[3; 5]%R]) as (lo & hi & _ & _ & Hret).
  - reflexivity.
  - discriminate.
  - exists lo, hi. exact Hret.
Defined.




End MosaicContent.

(** ** The random generators *)

Section Sphere.
Local Open Scope R_scope.

Lemma draw_matrix_row st f batch size i :
  (i < batch)%nat →
  (draw_matrix st f batch size).1 !! i = Some (f <$> raw_row st size i).
Proof.
  intros Hi. unfold draw_matrix, raw_row. simpl.
  rewrite list_lookup_fmap, lookup_seq_lt by done. simpl.
  by rewrite <- list_fmap_compose.
Qed.

Lemma length_draw_matrix st f batch size :
  length (draw_matrix st f batch size).1 = batch.
Proof. unfold draw_matrix. simpl. by rewrite length_fmap, length_seq. Qed.

Lemma length_raw_row st size i : length (raw_row st size i) = size.
Proof. unfold raw_row. by rewrite length_fmap, length_seq. Qed.

Lemma standard_normal_row st size i :
  (fun z => 0 + 1 * z) <$> raw_row st size i = raw_row st size i.
Proof.
  rewrite <- (list_fmap_id (raw_row st size i)) at 2.
  apply list_fmap_ext. intros _ z _. simpl. lra.
Qed.

Lemma uniform_nsphere_row st batch size i :
  (i < batch)%nat →
  (uniform_nsphere st batch size).1 !! i
  = Some ((fun v => fdiv v (norm (raw_row st size i))) <$> raw_row st size i).
Proof.
  intros Hi. unfold uniform_nsphere, np_random_normal.
  destruct (draw_matrix st (fun z => 0 + 1 * z) batch size) as [nns st'] eqn:E.
  simpl. rewrite astype_id.
  assert (Hrow : nns !! i = Some (raw_row st size i)).
  { replace nns with (draw_matrix st (fun z => 0 + 1 * z) batch size).1 by (by rewrite E).
    by rewrite draw_matrix_row, standard_normal_row. }
  rewrite lookup_zip_with, Hrow. simpl. rewrite list_lookup_fmap, Hrow. done.
Qed.

Lemma Rsum_squares_nonneg l : 0 <= Rsum (Rsqr <$> l).
Proof.
  induction l as [|v l IH]; csimpl; [lra|]. pose proof (Rle_0_sqr v). lra.
Qed.

Lemma Rsum_squares_pos l : Exists (fun v => v ≠ 0) l → 0 < Rsum (Rsqr <$> l).
Proof.
  induction 1 as [v l Hv|v l _ IH]; csimpl.
  - pose proof (Rsum_squares_nonneg l). pose proof (Rlt_0_sqr v Hv). lra.
  - pose proof (Rle_0_sqr v). lra.
Qed.

Lemma Rsum_squares_scaled s l :
  s ≠ 0 →
  Rsum (Rsqr <$> ((fun v => v / s) <$> l)) = Rsum (Rsqr <$> l) / (s * s).
Proof.
  intros Hs. induction l as [|v l IH]; csimpl; [lra|].
  rewrite IH. unfold Rsqr. field. done.
Qed.

(** X22. Every row of [uniform_nsphere] whose draws are not all zero lies
    on the unit sphere: its entries are the draws divided by their
    Euclidean norm, all finite, and their squares sum to 1. *)
Theorem uniform_nsphere_unit_norm (st : rrng) (batch size i : nat) :
  (i < batch)%nat → Exists (fun v => v ≠ 0) (raw_row st size i) →
  ∃ vs, (uniform_nsphere st batch size).1 !! i = Some (Finite <$> vs)
    ∧ length vs = size
    ∧ vs = (fun v => v / norm (raw_row st size i)) <$> raw_row st size i
    ∧ 0 < norm (raw_row st size i)
    ∧ Rsum (Rsqr <$> vs) = 1.
Proof.
  intros Hi Hnz.
  pose proof (Rsum_squares_pos _ Hnz) as Hpos.
  assert (Hn : 0 < norm (raw_row st size i)) by (by apply sqrt_lt_R0).
  exists ((fun v => v / norm (raw_row st size i)) <$> raw_row st size i).
  split; [|split; [|split; [done|split; [done|]]]].
  - rewrite uniform_nsphere_row by done. f_equal.
    rewrite <- list_fmap_compose. apply list_fmap_ext. intros _ v _. simpl.
    unfold fdiv. destruct (Req_dec_T _ _) as [E|_]; [lra|done].
  - by rewrite length_fmap, length_raw_row.
  - rewrite Rsum_squares_scaled by lra. unfold norm.
    rewrite sqrt_sqrt by lra. field. lra.
Qed.

Lemma uniform_nsphere_unit_norm_witness :
  ∃ vs, (uniform_nsphere (fun _ => 2) 1 1).1 !! 0%nat = Some (Finite <$> vs)
    ∧ Rsum (Rsqr <$> vs) = 1.
Proof.
  destruct (uniform_nsphere_unit_norm (fun _ => 2) 1 1 0) as (vs & Hrow & _ & _ & _ & Hsum).
  - lia.
  - apply Exists_cons_hd. lra.
  - exists vs. split; [exact Hrow | exact Hsum].
Defined.

(** X23. A row of all-zero draws has no direction: its norm is zero and
    every entry of the returned row is the non-finite result of [0/0]. *)
Theorem uniform_nsphere_zero_row (st : rrng) (batch size i : nat) :
  (i < batch)%nat → Forall (fun v => v = 0) (raw_row st size i) →
  (uniform_nsphere st batch size).1 !! i = Some (replicate size NonFinite).
Proof.
  intros Hi Hz. rewrite uniform_nsphere_row by done. f_equal.
  assert (Hn : norm (raw_row st size i) = 0).
  { unfold norm. replace (Rsum (Rsqr <$> raw_row st size i)) with 0; [apply sqrt_0|].
    induction Hz as [|v l -> _ IH]; csimpl; [done|]. rewrite <- IH. unfold Rsqr. lra. }
  rewrite Hn. rewrite <- (length_raw_row st size i) at 2.
  generalize (raw_row st size i). intros l.
  induction l as [|v l IH]; csimpl; [done|]. rewrite IH. f_equal.
  unfold fdiv. by destruct (Req_dec_T 0 0).
Qed.

Lemma uniform_nsphere_zero_row_witness :
  (uniform_nsphere (fun _ => 0) 2 3).1 !! 1%nat = Some (replicate 3 NonFinite).
Proof.
  apply uniform_nsphere_zero_row; [lia|]. repeat constructor.
Defined.

(** X24. [uniform_nsphere] is [normal_ncube] with every row divided by its
    norm: on the same state both take the same draws and leave the source
    in the same state. *)
Theorem uniform_nsphere_of_normal_ncube (st : rrng) (batch size : nat) :
  (uniform_nsphere st batch size).1
    = (fun row => (fun v => fdiv v (norm row)) <$> row)
      <$> (normal_ncube st batch size).1
  ∧ (uniform_nsphere st batch size).2 = (normal_ncube st batch size).2
  ∧ has_shape batch size (normal_ncube st batch size).1 = true.
Proof.
  unfold uniform_nsphere, normal_ncube, np_random_normal.
  destruct (draw_matrix st (fun z => 0 + 1 * z) batch size) as [nns st'] eqn:E.
  simpl. rewrite astype_id. split; [|split; [done|]].
  - generalize nns. clear. intros nns.
    induction nns as [|row nns IH]; csimpl; [done|]. by rewrite IH.
  - replace nns with (draw_matrix st (fun z => 0 + 1 * z) batch size).1 by (by rewrite E).
    apply has_shape_spec. rewrite length_draw_matrix. split; [done|].
    apply Forall_lookup. intros i row Hrow.
    assert (Hi : (i < batch)%nat).
    { rewrite <- (length_draw_matrix st (fun z => 0 + 1 * z) batch size).
      by eapply lookup_lt_Some. }
    rewrite draw_matrix_row in Hrow by done. injection Hrow as <-.
    by rewrite length_fmap, length_raw_row.
Qed.

(** X25. With uniform deviates as draws, [uniform_ncube] returns a
    [batch]-by-[size] array whose entries all lie in [[-1, 1]], and it
    consumes [batch * size] draws. *)
Theorem uniform_ncube_range (st : rrng) (batch size : nat) :
  uniform_source st →
  has_shape batch size (uniform_ncube st batch size).1 = true
  ∧ all_cells (fun v => -1 <= v <= 1) (uniform_ncube st batch size).1
  ∧ (uniform_ncube st batch size).2 = (fun k => st (batch * size + k)%nat).
Proof.
  intros Hst. unfold uniform_ncube, np_random_uniform.
  destruct (draw_matrix st (fun u => -1 + (1 - -1) * u) batch size) as [m st'] eqn:E.
  simpl. rewrite astype_id.
  assert (Hm : m = (draw_matrix st (fun u => -1 + (1 - -1) * u) batch size).1)
    by (by rewrite E).
  assert (Hst' : st' = (draw_matrix st (fun u => -1 + (1 - -1) * u) batch size).2)
    by (by rewrite E).
  split; [|split; [|by rewrite Hst']].
  - rewrite Hm. apply has_shape_spec. rewrite length_draw_matrix. split; [done|].
    apply Forall_lookup. intros i row Hrow.
    assert (Hi : (i < batch)%nat).
    { rewrite <- (length_draw_matrix st (fun u => -1 + (1 - -1) * u) batch size).
      by eapply lookup_lt_Some. }
    rewrite draw_matrix_row in Hrow by done. injection Hrow as <-.
    by rewrite length_fmap, length_raw_row.
  - rewrite Hm. unfold all_cells. apply Forall_lookup. intros i row Hrow.
    assert (Hi : (i < batch)%nat).
    { rewrite <- (length_draw_matrix st (fun u => -1 + (1 - -1) * u) batch size).
      by eapply lookup_lt_Some. }
    rewrite draw_matrix_row in Hrow by done. injection Hrow as <-.
    apply Forall_fmap. unfold raw_row. apply Forall_fmap, Forall_forall.
    intros j _. simpl. pose proof (Hst (i * size + j)%nat). lra.
Qed.

Lemma uniform_ncube_range_witness :
  all_cells (fun v => -1 <= v <= 1) (uniform_ncube (fun _ => 1 / 2) 2 3).1.
Proof.
  destruct (uniform_ncube_range (fun _ => 1 / 2) 2 3) as (_ & H & _).
  - intros k. lra.
  - exact H.
Defined.

End Sphere.

Section Pruning.
Local Open Scope R_scope.

Lemma mapM_Ok {A B : Type} (f : A → result B) (g : A → B) (l : list A) :
  (∀ a, a ∈ l → f a = Ok (g a)) → mapM f l = Ok (g <$> l).
Proof.
  induction l as [|a l IH]; intros Hf; [done|]. cbn [mapM].
  rewrite (Hf a) by (by left). rewrite bind_Ok, IH, bind_Ok; [done|].
  intros a' Ha'. apply Hf. by right.
Qed.

(** The entry of the mask one uniform draw yields. *)
Lemma choice_pick r u :
  0 <= r <= 1 → 0 <= u < 1 →
  getitem [true; false]
    (searchsorted_right
       ((fun c => c / List.last (cumsum 0 [1 - r; r]) 0) <$> cumsum 0 [1 - r; r]) u)
  = Ok (if Rlt_dec u (1 - r) then true else false).
Proof.
  intros Hr Hu. cbn [cumsum List.last]. csimpl. unfold searchsorted_right.
  assert (E : 0 + (1 - r) + r = 1) by lra. rewrite E.
  cbn [List.filter].
  destruct (Rle_dec ((0 + (1 - r)) / 1) u) as [H1|H1];
    destruct (Rle_dec (1 / 1) u) as [H2|H2];
    destruct (Rlt_dec u (1 - r)) as [H3|H3]; try done; exfalso; lra.
Qed.

(** What [pruning_mask] returns for a ratio in [[0, 1]]: column [j] is
    kept exactly when its draw is below [1 - prune_ratio]. *)
Lemma pruning_mask_valid st shape size r :
  uniform_source st → shape !! 1%nat = Some size → 0 <= r <= 1 →
  pruning_mask st shape r
  = Ok ((fun j => if Rlt_dec (st j) (1 - r) then true else false) <$> seq 0 size,
        fun k => st (size + k)%nat).
Proof.
  intros Hst Hsize Hr. unfold pruning_mask.
  rewrite (getitem_Some _ _ _ Hsize), bind_Ok. unfold np_random_choice.
  cbn [length Nat.eqb negb existsb].
  destruct (Rlt_dec (1 - r) 0) as [?|_]; [lra|].
  destruct (Rlt_dec r 0) as [?|_]; [lra|]. cbn [orb].
  destruct (Req_dec_T (Rsum [1 - r; r]) 1) as [_|E]; [|exfalso; apply E; simpl; lra].
  cbv zeta.
  rewrite (mapM_Ok _ (fun j => if Rlt_dec (st j) (1 - r) then true else false)).
  - by rewrite bind_Ok.
  - intros j _. by apply choice_pick.
Qed.

Lemma fmap_constant {A B : Type} (f : A → B) (b : B) (l : list A) :
  (∀ a, f a = b) → f <$> l = replicate (length l) b.
Proof.
  intros Hf. induction l as [|a l IH]; csimpl; [done|]. by rewrite IH, Hf.
Qed.

(** X26. The documented extremes: with [prune_ratio = 0] every column is
    kept and with [prune_ratio = 1] every column is discarded, whatever
    the draws; the mask has one entry per column of [shaped_as]. *)
Theorem pruning_mask_extremes (st : rrng) (shape : list nat) (size : nat) :
  uniform_source st → shape !! 1%nat = Some size →
  (∃ st', pruning_mask st shape 0 = Ok (replicate size true, st'))
  ∧ (∃ st', pruning_mask st shape 1 = Ok (replicate size false, st')).
Proof.
  intros Hst Hsize. split.
  - rewrite (pruning_mask_valid st shape size 0) by (done || lra).
    eexists. rewrite (fmap_constant _ true), length_seq; [done|].
    intros j. destruct (Rlt_dec _ _) as [|H]; [done|]. pose proof (Hst j). lra.
  - rewrite (pruning_mask_valid st shape size 1) by (done || lra).
    eexists. rewrite (fmap_constant _ false), length_seq; [done|].
    intros j. destruct (Rlt_dec _ _) as [H|]; [|done]. pose proof (Hst j). lra.
Qed.

Lemma pruning_mask_extremes_witness :
  ∃ st', pruning_mask (fun _ => 1 / 2) [4; 3]%nat 1 = Ok ([false; false; false], st').
Proof.
  destruct (pruning_mask_extremes (fun _ => 1 / 2) [4; 3]%nat 3) as [_ H].
  - intros k. lra.
  - reflexivity.
  - exact H.
Defined.

(** X27. A ratio outside [[0, 1]] is rejected: one of the two weights is
    negative and [np.random.choice] raises [ValueError]; a [shaped_as] with
    fewer than two axes raises [IndexError] before any draw. *)
Theorem pruning_mask_rejects (st : rrng) (shape : list nat) (r : R) :
  ((length shape ≤ 1)%nat → pruning_mask st shape r = Raise IndexError)
  ∧ ((1 < length shape)%nat → r < 0 ∨ 1 < r →
     pruning_mask st shape r = Raise ValueError).
Proof.
  split.
  - intros Hl. unfold pruning_mask, getitem.
    by rewrite lookup_ge_None_2 by lia.
  - intros Hl Hr. unfold pruning_mask.
    destruct (lookup_lt_is_Some_2 shape 1) as [size Hsize]; [lia|].
    rewrite (getitem_Some _ _ _ Hsize), bind_Ok. unfold np_random_choice.
    cbn [length Nat.eqb negb existsb].
    destruct (Rlt_dec (1 - r) 0) as [?|H1]; [done|].
    destruct (Rlt_dec r 0) as [?|H2]; [done|]. exfalso. lra.
Qed.

(** X28. Pruning more never keeps more: on the same draws, every column
    kept under the larger ratio is also kept under the smaller one. *)
Theorem pruning_mask_monotone (st : rrng) (shape : list nat) (size : nat) (r r' : R) :
  uniform_source st → shape !! 1%nat = Some size →
  0 <= r → r <= r' → r' <= 1 →
  ∃ m m' st', pruning_mask st shape r = Ok (m, st')
    ∧ pruning_mask st shape r' = Ok (m', st')
    ∧ length m = size ∧ length m' = size
    ∧ ∀ j, m' !! j = Some true → m !! j = Some true.
Proof.
  intros Hst Hsize H0 Hrr H1.
  rewrite (pruning_mask_valid st shape size r), (pruning_mask_valid st shape size r')
    by (done || lra).
  eexists _, _, _. split; [done|]. split; [done|].
  split; [by rewrite length_fmap, length_seq|].
  split; [by rewrite length_fmap, length_seq|].
  intros j. rewrite !list_lookup_fmap.
  destruct (seq 0 size !! j) as [i|]; simpl; [|done].
  destruct (Rlt_dec (st i) (1 - r')) as [H|]; [|done].
  destruct (Rlt_dec (st i) (1 - r)) as [|H']; [done|]. exfalso. lra.
Qed.

Lemma pruning_mask_monotone_witness :
  ∃ m m' st', pruning_mask (fun _ => 1 / 2) [4; 3]%nat (1 / 4) = Ok (m, st')
    ∧ pruning_mask (fun _ => 1 / 2) [4; 3]%nat (3 / 4) = Ok (m', st')
    ∧ ∀ j, m' !! j = Some true → m !! j = Some true.
Proof.
  destruct (pruning_mask_monotone (fun _ => 1 / 2) [4; 3]%nat 3 (1 / 4) (3 / 4))
    as (m & m' & st' & H1 & H2 & _ & _ & H3).
  - intros k. lra.
  - reflexivity.
  - lra.
  - lra.
  - lra.
  - exists m, m', st'. split; [exact H1|]. split; [exact H2 | exact H3].
Defined.

End Pruning.

Section TileTotals.
Local Open Scope R_scope.

Lemma Rsum_app l1 l2 : Rsum (l1 ++ l2) = Rsum l1 + Rsum l2.
Proof. induction l1 as [|v l1 IH]; simpl; [lra|]. rewrite IH. lra. Qed.

Lemma np_sum_app A B : np_sum (A ++ B) = np_sum A + np_sum B.
Proof. unfold np_sum. by rewrite fmap_app, Rsum_app. Qed.

Lemma np_sum_zeros k N : np_sum (replicate k (replicate N 0)) = 0.
Proof.
  unfold np_sum. induction k as [|k IH]; csimpl; [done|].
  rewrite IH, Rsum_replicate_0. lra.
Qed.

Lemma np_sum_embed N px py t : np_sum (embed N px py t) = np_sum t.
Proof.
  unfold embed. rewrite !np_sum_app, !np_sum_zeros.
  assert (E : np_sum ((fun row => replicate py 0 ++ row
                         ++ replicate (N - py - length row)%nat 0) <$> t)
              = np_sum t).
  { unfold np_sum. induction t as [|row t IH]; csimpl; [done|].
    rewrite IH, !Rsum_app, !Rsum_replicate_0. lra. }
  rewrite E. lra.
Qed.

Lemma has_shape_embed N px py dx t :
  has_shape dx dx t = true → (px + dx ≤ N)%nat → (py + dx ≤ N)%nat →
  has_shape N N (embed N px py t) = true.
Proof.
  intros [Hl Hrows]%has_shape_spec Hpx Hpy. apply has_shape_spec. unfold embed.
  split.
  - rewrite !length_app, !length_replicate, length_fmap. lia.
  - apply Forall_app. split; [apply Forall_replicate; by rewrite length_replicate|].
    apply Forall_app. split; [|apply Forall_replicate; by rewrite length_replicate].
    apply Forall_fmap. eapply Forall_impl; [exact Hrows|]. intros row Hrow.
    cbv beta in Hrow. simpl. rewrite !length_app, !length_replicate. lia.
Qed.

Lemma cell_embed N px py dx t r c :
  has_shape dx dx t = true → (px + dx ≤ N)%nat → (py + dx ≤ N)%nat →
  (r < N)%nat → (c < N)%nat →
  cell (embed N px py t) r c
  = if in_block px py dx dx r c then cell t (r - px) (c - py) else Some 0.
Proof.
  intros Ht Hpx Hpy Hr Hc. pose proof Ht as [Hl Hrows]%has_shape_spec.
  unfold cell at 1, embed.
  destruct (decide (r < px)%nat) as [H1|H1].
  { rewrite lookup_app_l by (rewrite length_replicate; lia).
    rewrite lookup_replicate_2 by lia. simpl. rewrite lookup_replicate_2 by lia.
    destruct (in_block px py dx dx r c) eqn:Hb; [|done].
    apply in_block_spec in Hb. lia. }
  rewrite lookup_app_r by (rewrite length_replicate; lia).
  rewrite length_replicate.
  destruct (decide (r < px + dx)%nat) as [H2|H2].
  - rewrite lookup_app_l by (rewrite length_fmap; lia).
    rewrite list_lookup_fmap.
    destruct (lookup_lt_is_Some_2 t (r - px)) as [row Hrow]; [lia|].
    rewrite Hrow. simpl.
    assert (Hlr : length row = dx) by (by apply (has_shape_lookup _ _ _ _ _ Ht Hrow)).
    destruct (decide (c < py)%nat) as [H3|H3].
    { rewrite lookup_app_l by (rewrite length_replicate; lia).
      rewrite lookup_replicate_2 by lia.
      destruct (in_block px py dx dx r c) eqn:Hb; [|done].
      apply in_block_spec in Hb. lia. }
    rewrite lookup_app_r by (rewrite length_replicate; lia).
    rewrite length_replicate.
    destruct (decide (c < py + dx)%nat) as [H4|H4].
    + rewrite lookup_app_l by lia.
      replace (in_block px py dx dx r c) with true
        by (symmetry; apply in_block_spec; lia).
      unfold cell. by rewrite Hrow.
    + rewrite lookup_app_r by lia. rewrite lookup_replicate_2 by lia.
      destruct (in_block px py dx dx r c) eqn:Hb; [|done].
      apply in_block_spec in Hb. lia.
  - rewrite lookup_app_r by (rewrite length_fmap; lia).
    rewrite length_fmap, lookup_replicate_2 by lia. simpl.
    rewrite lookup_replicate_2 by lia.
    destruct (in_block px py dx dx r c) eqn:Hb; [|done].
    apply in_block_spec in Hb. lia.
Qed.

(** X29. Placement moves a tile without changing it: every plane of the
    result is its tile plane written into a plane of zeros at the drawn
    offsets, so each plane keeps the total of its tile. *)
Theorem place_tile_in_keeps_total (st : rng) (tile : ndarray4)
    (new_npx b f dx : nat) :
  shape4 tile = (b, f, dx, dx) → wf4 tile → (dx < new_npx)%nat →
  ∃ A st', place_tile_in st tile new_npx = Ok (A, st')
    ∧ ∀ i k tp, plane4 tile i k = Some tp →
        ∃ px py, (px + dx ≤ new_npx)%nat ∧ (py + dx ≤ new_npx)%nat
          ∧ plane4 A i k = Some (embed new_npx px py tp)
          ∧ np_sum (embed new_npx px py tp) = np_sum tp.
Proof.
  intros Hshape Hwf Hlt.
  destruct (place_tile_in_run st tile new_npx b f dx Hshape Hwf Hlt)
    as (A & Hret & HsA & HwA & Hat).
  eexists _, _. split; [exact Hret|].
  intros i k tp Htp.
  unfold wf4 in Hwf, HwA. rewrite Hshape in Hwf. rewrite HsA in HwA.
  destruct Hwf as [Hlen Htiles]. destruct HwA as [HlenA HA].
  unfold plane4 in Htp. destruct (data4 tile !! i) as [tb|] eqn:Htb; simpl in Htp; [|done].
  assert (Hi : (i < b)%nat) by (rewrite <- Hlen; by eapply lookup_lt_Some).
  rewrite Forall_lookup in Htiles. destruct (Htiles i tb Htb) as [Hlf Hplanes].
  assert (Hk : (k < f)%nat) by (rewrite <- Hlf; by eapply lookup_lt_Some).
  rewrite Forall_lookup in Hplanes. pose proof (Hplanes k tp Htp) as Hshape_tp.
  destruct (lookup_lt_is_Some_2 (data4 A) i) as [Ab HAb]; [lia|].
  rewrite Forall_lookup in HA. destruct (HA i Ab HAb) as [HlA HplA].
  destruct (lookup_lt_is_Some_2 Ab k) as [pl Hpl]; [lia|].
  rewrite Forall_lookup in HplA. pose proof (HplA k pl Hpl) as Hshape_pl.
  set (px := drawn_offset st (new_npx - dx) i).
  set (py := drawn_offset st (new_npx - dx) (b + i)).
  assert (Hpx : (px < new_npx - dx)%nat).
  { unfold px, drawn_offset.
    pose proof (Z.mod_pos_bound (Z.of_nat (st i)) (Z.of_nat (new_npx - dx)) ltac:(lia)).
    lia. }
  assert (Hpy : (py < new_npx - dx)%nat).
  { unfold py, drawn_offset.
    pose proof (Z.mod_pos_bound (Z.of_nat (st (b + i)%nat))
                  (Z.of_nat (new_npx - dx)) ltac:(lia)).
    lia. }
  exists px, py. split; [lia|]. split; [lia|]. split; [|apply np_sum_embed].
  unfold plane4. rewrite HAb. simpl. rewrite Hpl. f_equal.
  apply (matrix_ext new_npx new_npx); [done|apply (has_shape_embed _ _ _ dx); [done|lia|lia]|].
  intros r c Hr Hc.
  rewrite (cell_embed _ _ _ dx) by (done || lia).
  specialize (Hat i Hi k r c Hk Hr Hc). fold px py in Hat.
  unfold cell4, cell3 in Hat. rewrite HAb, Htb in Hat. simpl in Hat.
  rewrite Hpl in Hat. simpl in Hat. rewrite Hat.
  destruct (in_block px py dx dx r c); [|done]. by rewrite Htp.
Qed.

End TileTotals.

Lemma place_tile_in_keeps_total_witness :
  ∃ A st', place_tile_in (fun _ => 4) {| shape4 := (1, 1, 1, 1); data4 := [[[[7%R]]]] |} 3
           = Ok (A, st')
    ∧ ∃ px py, plane4 A 0 0 = Some (embed 3 px py [[7%R]]).
Proof.
  destruct (place_tile_in_keeps_total (fun _ => 4)
              {| shape4 := (1, 1, 1, 1); data4 := [[[[7%R]]]] |} 3 1 1 1)
    as (A & st' & Hret & Hplanes).
  - reflexivity.
  - unfold wf4, wf_planes. simpl. repeat constructor.
  - lia.
  - exists A, st'. split; [exact Hret|].
    destruct (Hplanes 0 0 [[7%R]] eq_refl) as (px & py & _ & _ & Hpl & _).
    exists px, py. exact Hpl.
Defined.

(** A degenerate and a regular grid, one outcome each. *)
Lemma generators_outcome_witness :
  make_gaussian 0 0 1 3 (Some 0%R) = Raise ValueError
  ∧ ∃ X Y Z, make_gaussian 0 0 1 3 None = Ok (X, Y, Z).
Proof.
  destruct (generators_outcome 0 0 1 3 (Some 0%R)) as [H0 _].
  destruct (generators_outcome 0 0 1 3 None) as [_ H1].
  split.
  - apply H0. right. reflexivity.
  - destruct H1 as (X & Y & Z & Zm & HZ & _).
    + intros [Hn|Hd]; [lia|]. unfold deg_of, dtype in Hd. simpl in Hd. lra.
    + exists X, Y, Z. exact HZ.
Defined.

Lemma pruning_mask_rejects_witness :
  pruning_mask (fun _ => 0%R) [5] (1 / 2) = Raise IndexError
  ∧ pruning_mask (fun _ => 0%R) [5; 4] 2 = Raise ValueError.
Proof.
  destruct (pruning_mask_rejects (fun _ => 0%R) [5] (1 / 2)) as [H0 _].
  destruct (pruning_mask_rejects (fun _ => 0%R) [5; 4] 2) as [_ H1].
  split; [apply H0; simpl; lia | apply H1; [simpl; lia | right; lra]].
Defined.
